(** * Saral-KYC: the offline upload queue of the service worker

    A shallow embedding of the background-sync part of [src/server.js]
    (the [sw.js] section, lines 286-391): the [sync] listener, [openDB],
    [processUploadQueue], [getAllFromStore] and [deleteFromStore].

    The worker talks to two platform collaborators that are not JavaScript
    of the repository: the IndexedDB object store and [fetch].  The object
    store is modelled explicitly (module [IDB]); the network and the
    storage faults are an oracle ([Env]) that every operation consults, so
    that all definitions stay executable. *)

From Stdlib Require Import List String NArith Bool Lia Sorted Permutation.
From Stdlib Require Import Ascii DecimalString.
Import ListNotations.

Local Open Scope string_scope.
Local Open Scope list_scope.
Local Open Scope N_scope.

(** ** Data model *)

(** The value the page stores for a request that could not be sent: the
    four properties [processUploadQueue] reads back (lines 343-347). *)
Record StoredValue : Type := mkStoredValue {
  url : string;
  method : string;
  headers : list (string * string);
  body : string
}.

(** [{ ...cursor.value, key: cursor.primaryKey }] (line 375): the stored
    value with the primary key of its record added. *)
Record QueuedRequest : Type := mkQueuedRequest {
  value : StoredValue;
  key : N
}.

(** What a JavaScript [throw] or a promise rejection carries here. *)
Inductive JsError : Type :=
| Str (s : string)              (* a bare string, as in [reject("...")] *)
| ErrorObj (message : string)   (* [new Error(message)] *)
| DOMException (name : string). (* [event.target.error] of a request *)

(** Settled state of a promise. *)
Inductive Settled (A : Type) : Type :=
| Fulfilled (a : A)
| Rejected (e : JsError).
Arguments Fulfilled {A} a.
Arguments Rejected {A} e.

(** Outcome of one [fetch]: the promise rejects on a transport failure and
    otherwise resolves with a response, of which only the status is read. *)
Inductive FetchResult : Type :=
| NetworkError (e : JsError)
| Response (status : N).

(** [response.ok]: the status is in the range 200-299. *)
Definition ok (status : N) : bool := (200 <=? status) && (status <=? 299).

(** The replay of an entry "returned a success status". *)
Definition succeeded (r : FetchResult) : bool :=
  match r with
  | NetworkError _ => false
  | Response status => ok status
  end.

(** ** The object store *)

Module IDB.

(** Modelled from the spec: the object store behind [self.indexedDB], a
    platform collaborator of which [src/server.js] holds only the calls
    ([createObjectStore(..., { autoIncrement: true })], [openCursor],
    [delete]); the enqueuer's [put] is page code outside [src/].  Spec 4.1
    and 6: a durable key-value store with auto-incrementing keys and
    cursor-style full enumeration.  Records are kept in ascending key order,
    which is the order a cursor visits them in; the key generator holds the
    next key to hand out. *)
Record ObjectStore : Type := mkObjectStore {
  records : list (N * StoredValue);
  keygen : N
}.

(** Modelled from the spec: [createObjectStore(name, { autoIncrement: true })]
    (line 330) makes an empty store whose key generator starts at 1. *)
Definition createObjectStore : ObjectStore :=
  {| records := []; keygen := 1 |}.

(** Modelled from the spec: storing a record under key [k] keeps the records
    sorted by key and replaces a record that already has that key. *)
Fixpoint insert_record (k : N) (v : StoredValue) (l : list (N * StoredValue))
  : list (N * StoredValue) :=
  match l with
  | [] => [(k, v)]
  | (k', v') :: rest =>
      if k <? k' then (k, v) :: l
      else if k =? k' then (k, v) :: rest
      else (k', v') :: insert_record k v rest
  end.

(** Modelled from the spec: [put(request) -> key] (spec 4.1) on a store with
    a key generator "assigns the next key": the record is stored under the
    generator's current number, which is then incremented. *)
Definition put (v : StoredValue) (s : ObjectStore) : N * ObjectStore :=
  (keygen s,
   {| records := insert_record (keygen s) v (records s);
      keygen := keygen s + 1 |}).

(** Modelled from the spec: [delete(key)] removes the record with that key,
    "deleting a non-existent key is a no-op, not an error" (spec 4.1); the
    key generator is never moved back. *)
Definition delete (k : N) (s : ObjectStore) : ObjectStore :=
  {| records := filter (fun kv => negb (fst kv =? k)) (records s);
     keygen := keygen s |}.

(** Modelled from the spec: a cursor opened on the store visits every record
    in ascending key order. *)
Definition openCursor (s : ObjectStore) : list (N * StoredValue) := records s.

Definition keys (s : ObjectStore) : list N := map fst (records s).

(** [ascending lo l hi]: the keys [l] increase strictly and lie in
    [lo, hi). *)
Fixpoint ascending (lo : N) (l : list N) (hi : N) : bool :=
  match l with
  | [] => true
  | k :: rest => (lo <=? k) && (k <? hi) && ascending (k + 1) rest hi
  end.

(** The invariant of a store with a key generator: records strictly sorted
    by key, every key below the generator's current number. *)
Definition wf (s : ObjectStore) : Prop :=
  ascending 0 (keys s) (keygen s) = true.

(** The store's operations, as the page and the worker issue them. *)
Inductive Op : Type :=
| Put (v : StoredValue)
| Delete (k : N).

Definition apply (o : Op) (s : ObjectStore) : ObjectStore :=
  match o with
  | Put v => snd (put v s)
  | Delete k => delete k s
  end.

Definition run (ops : list Op) (s : ObjectStore) : ObjectStore :=
  fold_left (fun s' o => apply o s') ops s.

(** The keys handed out by the puts of [ops], oldest first. *)
Fixpoint assigned (ops : list Op) (s : ObjectStore) : list N :=
  match ops with
  | [] => []
  | Put v :: rest => fst (put v s) :: assigned rest (snd (put v s))
  | Delete k :: rest => assigned rest (delete k s)
  end.

(** The queue as the spec's words describe it, without any sorting: a put
    appends the new entry at the end, a delete drops the entry with the key;
    the next key only ever goes up. *)
Fixpoint insertion_log (ops : list Op) (log : list (N * StoredValue)) (next : N)
  : list (N * StoredValue) :=
  match ops with
  | [] => log
  | Put v :: rest => insertion_log rest (log ++ [(next, v)]) (next + 1)
  | Delete k :: rest =>
      insertion_log rest (filter (fun kv => negb (fst kv =? k)) log) next
  end.

End IDB.

(** ** The worker's world *)

(** What the worker does that can be observed from outside. *)
Inductive Event : Type :=
| EvFetch (k : N) (v : StoredValue)   (* [fetch(req.url, {...})] for the item with key [k] *)
| EvDelete (k : N)                    (* [store.delete(key)] requested *)
| EvLog (msg : string) (u : string)   (* [console.log(msg, u)] *)
| EvError (msg : string) (e : JsError). (* [console.error(msg, e)] *)

(** The database ['BharatKYC-DB'] ([None] until it is first opened) and the
    events so far, oldest first. *)
Record World : Type := mkWorld {
  db : option IDB.ObjectStore;
  trace : list Event
}.

(** The collaborators' side of one drain cycle: whether opening the database
    fails (with the request's [errorCode] as it prints), whether the cursor
    request fails, whether the delete request for a key fails, and what the
    network answers to the replay of the item with a given key. *)
Record Env : Type := mkEnv {
  open_error : option string;
  cursor_error : option JsError;
  delete_error : N -> option JsError;
  net : N -> StoredValue -> FetchResult
}.

(** Asynchronous code: reads the oracle, changes the world, settles. *)
Definition Async (A : Type) : Type := Env -> World -> Settled A * World.

Definition ret {A} (a : A) : Async A := fun _ w => (Fulfilled a, w).

Definition throw {A} (e : JsError) : Async A := fun _ w => (Rejected e, w).

Definition bind {A B} (m : Async A) (f : A -> Async B) : Async B :=
  fun env w =>
    match m env w with
    | (Fulfilled a, w') => f a env w'
    | (Rejected e, w') => (Rejected e, w')
    end.

(** [try { m } catch (error) { h error }] *)
Definition try_catch {A} (m : Async A) (h : JsError -> Async A) : Async A :=
  fun env w =>
    match m env w with
    | (Fulfilled a, w') => (Fulfilled a, w')
    | (Rejected e, w') => h e env w'
    end.

Notation "x <- m ;; f" := (bind m (fun x => f))
  (at level 61, m at next level, right associativity).
Notation "m ;;; f" := (bind m (fun _ => f))
  (at level 61, right associativity).

Definition emit (ev : Event) : Async unit :=
  fun _ w => (Fulfilled tt, {| db := db w; trace := trace w ++ [ev] |}).

(** [Promise.all]: every promise runs to its end whatever the others do; the
    result is the list of values, or the first rejection. *)
Fixpoint promise_all {A} (ps : list (Async A)) : Async (list A) :=
  fun env w =>
    match ps with
    | [] => (Fulfilled [], w)
    | p :: rest =>
        let (r, w1) := p env w in
        let (rs, w2) := promise_all rest env w1 in
        (match r, rs with
         | Rejected e, _ => Rejected e
         | Fulfilled _, Rejected e => Rejected e
         | Fulfilled a, Fulfilled l => Fulfilled (a :: l)
         end, w2)
    end.

(** The entries of the queue, in the order a cursor visits them. *)
Definition queue (w : World) : list (N * StoredValue) :=
  match db w with
  | Some s => IDB.records s
  | None => []
  end.

Definition has_key (k : N) (w : World) : Prop := In k (map fst (queue w)).

(** ** The worker's functions *)

Definition UPLOAD_QUEUE_STORE : string := "upload_queue".

Definition string_of_N (n : N) : string := NilEmpty.string_of_uint (N.to_uint n).

(** The handles the worker holds: the open database ([event.target.result]
    of the open request) and an object store of one of its transactions.
    They name the live objects of the world, they are not copies. *)
Inductive IDBDatabase : Type :=
| Database (name : string) (version : N).

Inductive IDBObjectStore : Type :=
| StoreOf (database : IDBDatabase) (name : string).

(** [openDB] (lines 323-333): rejects with a string on error; on first use
    the upgrade handler creates the object store. *)
Definition openDB : Async IDBDatabase :=
  fun env w =>
    match open_error env with
    | Some errorCode => (Rejected (Str ("IndexedDB error: " ++ errorCode)), w)
    | None =>
        (Fulfilled (Database "BharatKYC-DB" 1),
         match db w with
         | Some _ => w
         | None => {| db := Some IDB.createObjectStore; trace := trace w |}
         end)
    end.

(** [database.transaction(name, 'readwrite').objectStore(name)] (lines
    337-338 and 357-358): the handle on the live store; throws when the
    database has no store of that name. *)
Definition objectStore (database : IDBDatabase) (name : string)
  : Async IDBObjectStore :=
  fun _ w =>
    match db w with
    | Some _ =>
        if String.eqb name UPLOAD_QUEUE_STORE
        then (Fulfilled (StoreOf database name), w)
        else (Rejected (DOMException "NotFoundError"), w)
    | None => (Rejected (DOMException "NotFoundError"), w)
    end.

(** The cursor loop of [getAllFromStore] (lines 372-380): each record visited
    is pushed on [items] with its primary key; at the end [items] is the
    result. *)
Fixpoint cursor_loop (rest : list (N * StoredValue)) (items : list QueuedRequest)
  : list QueuedRequest :=
  match rest with
  | [] => items
  | (primaryKey, v) :: rest' =>
      cursor_loop rest' (items ++ [{| value := v; key := primaryKey |}])
  end.

(** [getAllFromStore] (lines 368-383): the cursor request either fails or
    walks the records of the live store. *)
Definition getAllFromStore (store : IDBObjectStore) : Async (list QueuedRequest) :=
  fun env w =>
    match cursor_error env with
    | Some e => (Rejected e, w)
    | None =>
        match db w with
        | Some s => (Fulfilled (cursor_loop (IDB.openCursor s) []), w)
        | None => (Rejected (DOMException "InvalidStateError"), w)
        end
    end.

(** [deleteFromStore] (lines 385-390): the delete request either fails or
    is applied to the live store. *)
Definition deleteFromStore (store : IDBObjectStore) (k : N) : Async unit :=
  fun env w =>
    let w1 := {| db := db w; trace := trace w ++ [EvDelete k] |} in
    match delete_error env k with
    | Some e => (Rejected e, w1)
    | None =>
        (Fulfilled tt,
         {| db := option_map (IDB.delete k) (db w1); trace := trace w1 |})
    end.

(** [fetch(req.url, { method, headers, body })] (lines 343-347).  The
    network is asked with the item's key as well, so that two items with the
    same four properties may meet different answers. *)
Definition fetch (req : QueuedRequest) : Async N :=
  fun env w =>
    let w1 := {| db := db w; trace := trace w ++ [EvFetch (key req) (value req)] |} in
    match net env (key req) (value req) with
    | NetworkError e => (Rejected e, w1)
    | Response status => (Fulfilled status, w1)
    end.

(** The callback mapped over the snapshot (lines 341-365). *)
Definition replay (database : IDBDatabase) (req : QueuedRequest) : Async unit :=
  try_catch
    (status <- fetch req ;;
     if negb (ok status)
     then throw (ErrorObj ("Server responded with status: " ++ string_of_N status))
     else
       store <- objectStore database UPLOAD_QUEUE_STORE ;;
       deleteFromStore store (key req) ;;;
       emit (EvLog "Successfully uploaded queued request:" (url (value req))))
    (fun error =>
       emit (EvError "Failed to upload queued request, will retry later." error)).

(** [processUploadQueue] (lines 335-366). *)
Definition processUploadQueue : Async (list unit) :=
  database <- openDB ;;
  store <- objectStore database UPLOAD_QUEUE_STORE ;;
  requests <- getAllFromStore store ;;
  promise_all (map (replay database) requests).

(** The [sync] listener (lines 317-321): [Some] of the settled promise handed
    to [event.waitUntil], [None] when the handler does nothing. *)
Definition on_sync (tag : string) (env : Env) (w : World)
  : option (Settled (list unit)) * World :=
  if String.eqb tag "sync-uploads"
  then let (r, w') := processUploadQueue env w in (Some r, w')
  else (None, w).


(** ** The effect of a drain cycle in closed form *)

(** The entry's [fetch] returns a success status and its delete request goes
    through: exactly then its record is removed. *)
Definition removes (env : Env) (req : QueuedRequest) : bool :=
  succeeded (net env (key req) (value req)) &&
  match delete_error env (key req) with
  | None => true
  | Some _ => false
  end.

Definition replay_db (env : Env) (req : QueuedRequest) (d : option IDB.ObjectStore)
  : option IDB.ObjectStore :=
  if removes env req then option_map (IDB.delete (key req)) d else d.

Definition failed_msg : string :=
  "Failed to upload queued request, will retry later.".

Definition replay_events (env : Env) (req : QueuedRequest) : list Event :=
  EvFetch (key req) (value req) ::
  match net env (key req) (value req) with
  | NetworkError e => [EvError failed_msg e]
  | Response status =>
      if ok status then
        EvDelete (key req) ::
        match delete_error env (key req) with
        | Some e => [EvError failed_msg e]
        | None => [EvLog "Successfully uploaded queued request:" (url (value req))]
        end
      else
        [EvError failed_msg
           (ErrorObj ("Server responded with status: " ++ string_of_N status))]
  end.

Definition drain_db (env : Env) (reqs : list QueuedRequest) (d : option IDB.ObjectStore)
  : option IDB.ObjectStore :=
  fold_left (fun d' req => replay_db env req d') reqs d.

(** The snapshot a cycle takes of a queue. *)
Definition snapshot (q : list (N * StoredValue)) : list QueuedRequest :=
  map (fun kv => {| value := snd kv; key := fst kv |}) q.

(** The store a cycle works on once [openDB] has resolved. *)
Definition opened (w : World) : IDB.ObjectStore :=
  match db w with
  | Some s => s
  | None => IDB.createObjectStore
  end.

(** The database, once created, holds a well-formed store. *)
Definition wf_world (w : World) : Prop :=
  match db w with
  | Some s => IDB.wf s
  | None => True
  end.

(** The record of [kv] survives the cycle over [reqs]: no request of the
    snapshot with that key is removed. *)
Definition survives (env : Env) (reqs : list QueuedRequest) (kv : N * StoredValue)
  : bool :=
  negb (existsb (fun req => removes env req && (key req =? fst kv)) reqs).

(** One drain cycle after the other, each against its own oracle. *)
Fixpoint cycles (envs : list Env) (w : World) : World :=
  match envs with
  | [] => w
  | env :: rest => cycles rest (snd (processUploadQueue env w))
  end.

(** The events a cycle adds to the trace. *)
Definition cycle_events (env : Env) (w : World) : list Event :=
  skipn (List.length (trace w)) (trace (snd (processUploadQueue env w))).

(** Spec 4.2 and 7, "store errors are fatal to the cycle and reported
    upward, leaving the queue untouched", as a proposition: [store_error]
    says that an operation on the store that the cycle performs fails. *)
Definition store_error (env : Env) (w : World) : Prop :=
  open_error env <> None \/
  (open_error env = None /\ cursor_error env <> None) \/
  (open_error env = None /\ cursor_error env = None /\
   exists req, In req (snapshot (queue w)) /\
               succeeded (net env (key req) (value req)) = true /\
               delete_error env (key req) <> None).

(** Spec 4.2 step 3 and 8.4 as a proposition: an entry of the snapshot is
    gone from the store after the cycle exactly when its replay returned a
    success status. *)
Definition deleted_iff_success : Prop :=
  forall env w k v,
    wf_world w ->
    open_error env = None -> cursor_error env = None ->
    In (k, v) (queue w) ->
    (~ has_key k (snd (processUploadQueue env w)) <->
     succeeded (net env k v) = true).

(** Spec 8.5 as a proposition: of two queued entries, the first meeting a
    transport error and the second a success status, the first stays and
    the second is removed. *)
Definition second_of_two_is_removed : Prop :=
  forall env w k1 v1 k2 v2 e status,
    wf_world w ->
    open_error env = None -> cursor_error env = None ->
    queue w = [(k1, v1); (k2, v2)] ->
    net env k1 v1 = NetworkError e ->
    net env k2 v2 = Response status -> ok status = true ->
    queue (snd (processUploadQueue env w)) = [(k1, v1)].

(** Spec 4.1 and 8.1 as a proposition: deleting a key that has no record
    does not error and changes nothing. *)
Definition delete_of_missing_key_never_errors : Prop :=
  forall store env w k,
    ~ has_key k w ->
    fst (deleteFromStore store k env w) = Fulfilled tt /\
    db (snd (deleteFromStore store k env w)) = db w.

Definition store_errors_are_fatal : Prop :=
  forall env w,
    wf_world w -> store_error env w ->
    (exists e, fst (processUploadQueue env w) = Rejected e) /\
    queue (snd (processUploadQueue env w)) = queue w.

(** ** Concrete queues and collaborators *)

Module Examples.

Definition doc_upload : StoredValue :=
  {| url := "/api/kyc/document-upload"; method := "POST";
     headers := [("Accept", "application/json")]; body := "document=aadhaar.jpg" |}.

Definition face_scan : StoredValue :=
  {| url := "/api/kyc/face-scan"; method := "POST";
     headers := [("Accept", "application/json")]; body := "face-scan=selfie.png" |}.

Definition help_request : StoredValue :=
  {| url := "/api/ai/help"; method := "POST";
     headers := [("Content-Type", "application/json")]; body := "{}" |}.

(** The database after the page queued the two uploads, in that order. *)
Definition two_queued : World :=
  {| db := Some (IDB.run [IDB.Put doc_upload; IDB.Put face_scan] IDB.createObjectStore);
     trace := [] |}.

Definition one_queued : World :=
  {| db := Some (IDB.run [IDB.Put doc_upload] IDB.createObjectStore);
     trace := [] |}.

(** The worker's handle on the queue's object store. *)
Definition upload_queue : IDBObjectStore :=
  StoreOf (Database "BharatKYC-DB" 1) UPLOAD_QUEUE_STORE.

Definition failed_to_fetch : JsError := ErrorObj "Failed to fetch".
Definition unknown_error : JsError := DOMException "UnknownError".

(** Everything works: the server answers 200. *)
Definition online : Env :=
  {| open_error := None; cursor_error := None;
     delete_error := fun _ => None;
     net := fun _ _ => Response 200 |}.

(** No connectivity: every [fetch] rejects. *)
Definition offline : Env :=
  {| open_error := None; cursor_error := None;
     delete_error := fun _ => None;
     net := fun _ _ => NetworkError failed_to_fetch |}.

(** The server answers 500 to everything. *)
Definition server_down : Env :=
  {| open_error := None; cursor_error := None;
     delete_error := fun _ => None;
     net := fun _ _ => Response 500 |}.

(** The replay of the item with key 1 meets a transport error, the others
    get a 200. *)
Definition first_fails : Env :=
  {| open_error := None; cursor_error := None;
     delete_error := fun _ => None;
     net := fun k _ => if k =? 1 then NetworkError failed_to_fetch else Response 200 |}.

(** The server answers 200 but the store's delete requests fail. *)
Definition delete_fault : Env :=
  {| open_error := None; cursor_error := None;
     delete_error := fun _ => Some unknown_error;
     net := fun _ _ => Response 200 |}.

(** The replay of the item with key 1 meets a transport error, the others
    get a 200, and the store's delete requests fail. *)
Definition first_fails_delete_fault : Env :=
  {| open_error := None; cursor_error := None;
     delete_error := fun _ => Some unknown_error;
     net := fun k _ => if k =? 1 then NetworkError failed_to_fetch else Response 200 |}.

(** The cursor request fails. *)
Definition cursor_fault : Env :=
  {| open_error := None; cursor_error := Some unknown_error;
     delete_error := fun _ => None;
     net := fun _ _ => Response 200 |}.

(** The database cannot be opened. *)
Definition open_fault : Env :=
  {| open_error := Some "undefined"; cursor_error := None;
     delete_error := fun _ => None;
     net := fun _ _ => Response 200 |}.

End Examples.

(** ** Drain cycles running side by side *)

(** The worker is single-threaded: what interleaves are the tasks between
    the [await]s.  One call of [processUploadQueue] is cut at its suspension
    points: opening the database, the cursor walk (one read transaction),
    the completion of each [fetch], and each delete request.  The snapshot's
    replays are all in flight at once ([requests.map] starts every callback)
    and complete in any order; which task runs next is the schedule's
    choice. *)
Module Interleave.

(** Where one call of [processUploadQueue] stands. *)
Inductive Cycle : Type :=
| Called                         (* [await openDB()] pending *)
| Opened                         (* database open, cursor request pending *)
| Replaying (fetching deleting : list QueuedRequest)
                                 (* replays awaiting [fetch], and those awaiting
                                    their delete request *)
| Failed (e : JsError).          (* the promise of the call rejected *)

(** The call's promise has settled: rejected, or every callback is done. *)
Definition settled (c : Cycle) : bool :=
  match c with
  | Replaying [] [] => true
  | Failed _ => true
  | _ => false
  end.

(** What a task did. *)
Inductive Label : Type :=
| LOpen
| LList
| LFetch (k : N) (success : bool)
| LDelete (k : N) (found : bool)       (* the delete request went through;
                                          [found]: there was a record to remove *)
| LDeleteError (k : N) (e : JsError)   (* the delete request failed *)
| LReject (e : JsError).               (* the call rejected *)

Definition is_error (l : Label) : bool :=
  match l with
  | LDeleteError _ _ | LReject _ => true
  | _ => false
  end.

Definition is_removal (k : N) (l : Label) : bool :=
  match l with
  | LDelete k' true => k' =? k
  | _ => false
  end.

Definition records_of (d : option IDB.ObjectStore) : list (N * StoredValue) :=
  match d with
  | Some s => IDB.records s
  | None => []
  end.

Definition has_record (k : N) (d : option IDB.ObjectStore) : bool :=
  existsb (fun kv => fst kv =? k) (records_of d).

Definition remove_nth {A} (i : nat) (l : list A) : list A :=
  firstn i l ++ skipn (S i) l.

(** One task of a cycle; [i] picks among the pending replays (first those
    awaiting [fetch], then those awaiting deletion).  [None]: there is no
    such task. *)
Definition cstep (env : Env) (i : nat) (d : option IDB.ObjectStore) (c : Cycle)
  : option (Label * option IDB.ObjectStore * Cycle) :=
  match c with
  | Called =>
      match open_error env with
      | Some code =>
          let e := Str ("IndexedDB error: " ++ code) in
          Some (LReject e, d, Failed e)
      | None =>
          Some (LOpen,
                Some (match d with Some s => s | None => IDB.createObjectStore end),
                Opened)
      end
  | Opened =>
      match cursor_error env with
      | Some e => Some (LReject e, d, Failed e)
      | None => Some (LList, d, Replaying (cursor_loop (records_of d) []) [])
      end
  | Replaying fetching deleting =>
      match nth_error fetching i with
      | Some req =>
          if succeeded (net env (key req) (value req))
          then Some (LFetch (key req) true, d,
                     Replaying (remove_nth i fetching) (deleting ++ [req]))
          else Some (LFetch (key req) false, d,
                     Replaying (remove_nth i fetching) deleting)
      | None =>
          let j := (i - List.length fetching)%nat in
          match nth_error deleting j with
          | Some req =>
              match delete_error env (key req) with
              | Some e =>
                  Some (LDeleteError (key req) e, d,
                        Replaying fetching (remove_nth j deleting))
              | None =>
                  Some (LDelete (key req) (has_record (key req) d),
                        option_map (IDB.delete (key req)) d,
                        Replaying fetching (remove_nth j deleting))
              end
          | None => None
          end
      end
  | Failed _ => None
  end.

(** Two calls of [processUploadQueue] over one database. *)
Inductive Side : Type := L | R.

Record Config : Type := mkConfig {
  store : option IDB.ObjectStore;
  left : Cycle;
  right : Cycle
}.

Definition step (envL envR : Env) (choice : Side * nat) (c : Config)
  : option (Label * Config) :=
  match choice with
  | (L, i) =>
      match cstep envL i (store c) (left c) with
      | Some (l, d, c') => Some (l, {| store := d; left := c'; right := right c |})
      | None => None
      end
  | (R, i) =>
      match cstep envR i (store c) (right c) with
      | Some (l, d, c') => Some (l, {| store := d; left := left c; right := c' |})
      | None => None
      end
  end.

(** Running a schedule: the labels of the tasks, oldest first, and the
    configuration reached; [None] when the schedule names a task that does
    not exist. *)
Fixpoint run (envL envR : Env) (schedule : list (Side * nat)) (c : Config)
  : option (list Label * Config) :=
  match schedule with
  | [] => Some ([], c)
  | choice :: rest =>
      match step envL envR choice c with
      | Some (l, c') =>
          match run envL envR rest c' with
          | Some (ls, c'') => Some (l :: ls, c'')
          | None => None
          end
      | None => None
      end
  end.

Definition all_settled (c : Config) : bool :=
  settled (left c) && settled (right c).

(** An upper bound on the tasks a cycle still has to run. *)
Definition tasks (d : option IDB.ObjectStore) (c : Cycle) : nat :=
  match c with
  | Called => 2 + 2 * List.length (records_of d)
  | Opened => 1 + 2 * List.length (records_of d)
  | Replaying fetching deleting => 2 * List.length fetching + List.length deleting
  | Failed _ => 0
  end.

Definition measure (c : Config) : nat :=
  (tasks (store c) (left c) + tasks (store c) (right c))%nat.

(** Both cycles just called, over a queue that holds one entry. *)
Definition one_entry (k : N) (v : StoredValue) (g : N) : Config :=
  {| store := Some {| IDB.records := [(k, v)]; IDB.keygen := g |};
     left := Called; right := Called |}.

(** One cycle on its own, its tasks in the order [schedule] picks. *)
Fixpoint crun (env : Env) (schedule : list nat) (d : option IDB.ObjectStore)
    (c : Cycle) : option (list Label * option IDB.ObjectStore * Cycle) :=
  match schedule with
  | [] => Some ([], d, c)
  | i :: rest =>
      match cstep env i d c with
      | Some (l, d', c') =>
          match crun env rest d' c' with
          | Some (ls, d'', c'') => Some (l :: ls, d'', c'')
          | None => None
          end
      | None => None
      end
  end.

Definition delete_all (ks : list N) (d : option IDB.ObjectStore)
  : option IDB.ObjectStore :=
  fold_left (fun d' k => option_map (IDB.delete k) d') ks d.

Definition deletable (env : Env) (req : QueuedRequest) : bool :=
  match delete_error env (key req) with
  | None => true
  | Some _ => false
  end.

(** The keys whose delete request is still to come and will go through. *)
Definition pending_keys (env : Env) (fetching deleting : list QueuedRequest)
  : list N :=
  map key (filter (removes env) fetching ++ filter (deletable env) deleting).

(** The store the cycle will leave, read off its current state. *)
Definition target (env : Env) (d : option IDB.ObjectStore) (c : Cycle)
  : option IDB.ObjectStore :=
  match c with
  | Called =>
      match open_error env, cursor_error env with
      | Some _, _ => d
      | None, Some _ =>
          Some (match d with Some s => s | None => IDB.createObjectStore end)
      | None, None =>
          delete_all (pending_keys env (snapshot (records_of d)) [])
            (Some (match d with Some s => s | None => IDB.createObjectStore end))
      end
  | Opened =>
      match cursor_error env with
      | Some _ => d
      | None => delete_all (pending_keys env (snapshot (records_of d)) []) d
      end
  | Replaying fetching deleting =>
      delete_all (pending_keys env fetching deleting) d
  | Failed _ => d
  end.

(** The error the cycle's promise will reject with, if any. *)
Definition rejection (env : Env) (c : Cycle) : option JsError :=
  match c with
  | Called =>
      match open_error env with
      | Some code => Some (Str ("IndexedDB error: " ++ code))
      | None => cursor_error env
      end
  | Opened => cursor_error env
  | Replaying _ _ => None
  | Failed e => Some e
  end.

(** The cycle can enumerate the store and the replay of the entry [(k, v)]
    is answered with a success status. *)
Definition replays (env : Env) (k : N) (v : StoredValue) : Prop :=
  open_error env = None /\ cursor_error env = None /\
  succeeded (net env k v) = true.

(** The cycle has not rejected and replays nothing but [req]. *)
Definition only (req : QueuedRequest) (c : Cycle) : Prop :=
  match c with
  | Replaying fetching deleting =>
      Forall (eq req) fetching /\ Forall (eq req) deleting
  | Failed _ => False
  | _ => True
  end.

Definition removals (k : N) (ls : list Label) : nat :=
  List.length (filter (is_removal k) ls).

Definition no_errors (ls : list Label) : bool :=
  forallb (fun l => negb (is_error l)) ls.

(** The only error a task may end in: a delete request for [k] that the
    storage of one of the two cycles fails. *)
Definition explained (envL envR : Env) (k : N) (l : Label) : Prop :=
  match l with
  | LDeleteError k' e =>
      k' = k /\ (delete_error envL k = Some e \/ delete_error envR k = Some e)
  | LReject _ => False
  | _ => True
  end.

(** What holds all along two cycles over the one-entry queue: while the
    record is there nothing was removed, and a cycle that has settled had
    its delete request failed; once the record is gone it was removed
    once. *)
Definition one_entry_inv (envL envR : Env) (k : N) (v : StoredValue) (g : N)
    (ls : list Label) (c : Config) : Prop :=
  only {| value := v; key := k |} (left c) /\
  only {| value := v; key := k |} (right c) /\
  Forall (explained envL envR k) ls /\
  ((store c = Some {| IDB.records := [(k, v)]; IDB.keygen := g |} /\
    removals k ls = 0%nat /\
    (settled (left c) = true -> delete_error envL k <> None) /\
    (settled (right c) = true -> delete_error envR k <> None)) \/
   (store c = Some {| IDB.records := []; IDB.keygen := g |} /\
    removals k ls = 1%nat)).

(** Spec 8.6 as a proposition: two cycles over a queue of one entry whose
    replay succeeds remove the entry exactly once, and no task ends in an
    error. *)
Definition removed_once_without_error : Prop :=
  forall envL envR k v g schedule ls c,
    replays envL k v -> replays envR k v ->
    run envL envR schedule (one_entry k v g) = Some (ls, c) ->
    all_settled c = true ->
    store c = Some {| IDB.records := []; IDB.keygen := g |} /\
    removals k ls = 1%nat /\
    no_errors ls = true.

End Interleave.

(** ** More on the drain cycle *)

Definition is_fetch (ev : Event) : bool :=
  match ev with
  | EvFetch _ _ => true
  | _ => false
  end.

Module Order.
Import Interleave.

(** Walks the labels of a run with the keys whose replay has returned a
    success status so far: [false] as soon as a delete request comes for a
    key that is not among them. *)
Fixpoint delete_after_success (succeeded_keys : list N) (ls : list Label) : bool :=
  match ls with
  | [] => true
  | LFetch k true :: rest => delete_after_success (k :: succeeded_keys) rest
  | LDelete k _ :: rest =>
      existsb (N.eqb k) succeeded_keys && delete_after_success succeeded_keys rest
  | LDeleteError k _ :: rest =>
      existsb (N.eqb k) succeeded_keys && delete_after_success succeeded_keys rest
  | _ :: rest => delete_after_success succeeded_keys rest
  end.

(** The replays a cycle has waiting for their delete request. *)
Definition awaiting_delete (c : Cycle) : list QueuedRequest :=
  match c with
  | Replaying _ deleting => deleting
  | _ => []
  end.

Definition both_called (d : option IDB.ObjectStore) : Config :=
  {| store := d; left := Called; right := Called |}.

End Order.

(** ** The KYC server

    The Express application of [src/server.js] (lines 1-284): the user
    collection and the eight routes.  Requests are handled one at a time.
    The fields of a request body are JSON strings or absent; other JSON
    values are outside this model, except for the prompt of the help route,
    the one handler without a [try]/[catch].  MongoDB (through Mongoose) and bcrypt
    are collaborators: when one of their calls rejects is the oracle's
    choice, what a query finds is read off the collection.  The fields
    Mongoose fills in on its own (dates, the ids of sub-documents, the
    version key) are left out; no route reads them. *)
Module Server.

(** A property of [req.body]: [None] is [undefined]. *)
Definition Field : Type := option string.

(** [!x] for a field. *)
Definition falsy (x : Field) : bool :=
  match x with
  | None => true
  | Some s => String.eqb s ""
  end.

(** The prompt of a help request: any JSON value.  Of a value that is not
    a string only its truthiness matters. *)
Inductive Json : Type :=
| JUndefined
| JString (s : string)
| JOther (truthy : bool).

(** [!x] for a JSON value. *)
Definition falsy_json (x : Json) : bool :=
  match x with
  | JUndefined => true
  | JString s => String.eqb s ""
  | JOther truthy => negb truthy
  end.

(** The string a field holds; used where the field is known to be truthy. *)
Definition str (x : Field) : string :=
  match x with
  | Some s => s
  | None => ""
  end.

(** The user schema (lines 29-48). *)
Record Document : Type := mkDocument {
  docType : Field;
  filePath : string
}.

Record User : Type := mkUser {
  _id : string;
  fullName : string;
  mobile : string;
  password : string;
  kycStatus : string;
  documents : list Document;
  faceScan : option string;      (* [faceScan.filePath] *)
  rejectionReason : Field
}.

(** The values the schema's [enum] lists for [kycStatus] (line 37). *)
Definition statuses : list string :=
  ["Not Started"; "In Progress"; "Verified"; "Rejected"].

(** The collection and what was written to [console.error]. *)
Record State : Type := mkState {
  users : list User;
  errors : list (string * JsError)
}.

(** The collaborators' side of one request. *)
Record Oracle : Type := mkOracle {
  find_error : option JsError;       (* the query of the request rejects *)
  save_error : option JsError;       (* [save()] rejects *)
  bcrypt_error : option JsError;     (* a bcrypt call rejects *)
  new_id : string;                   (* the [_id] given to a new document *)
  salt : N -> string;                (* [bcrypt.genSalt(rounds)] *)
  hash : string -> string -> string; (* [bcrypt.hash(password, salt)] *)
  compare : string -> string -> bool (* [bcrypt.compare(password, hash)] *)
}.

Inductive Body : Type :=
| Message (message : string)
| LoginOk (message id name mobileNumber status : string)
| Users (pendingUsers : list User)
| StatusOf (id status name : string) (reason : Field)
| Reply (reply : string).

Record Response : Type := mkResponse {
  status : N;
  body : Body
}.

(** A route handler's code: reads the oracle, changes the state, settles. *)
Definition M (A : Type) : Type := Oracle -> State -> Settled A * State.

Definition ret {A} (a : A) : M A := fun _ s => (Fulfilled a, s).

Definition bind {A B} (m : M A) (f : A -> M B) : M B :=
  fun o s =>
    match m o s with
    | (Fulfilled a, s') => f a o s'
    | (Rejected e, s') => (Rejected e, s')
    end.

Definition throw {A} (e : JsError) : M A := fun _ s => (Rejected e, s).

Definition try_catch {A} (m : M A) (h : JsError -> M A) : M A :=
  fun o s =>
    match m o s with
    | (Fulfilled a, s') => (Fulfilled a, s')
    | (Rejected e, s') => h e o s'
    end.

Declare Scope server_scope.
Delimit Scope server_scope with server.
Notation "x <- m ;; f" := (bind m (fun x => f))
  (at level 61, m at next level, right associativity) : server_scope.
Notation "m ;;; f" := (bind m (fun _ => f))
  (at level 61, right associativity) : server_scope.
Local Open Scope server_scope.

(** [res.status(code).json(body)] *)
Definition respond (code : N) (b : Body) : M Response :=
  ret {| status := code; body := b |}.

Definition console_error (label : string) (e : JsError) : M unit :=
  fun _ s => (Fulfilled tt, {| users := users s; errors := errors s ++ [(label, e)] |}).

(** [User.findOne({ mobile })] *)
Definition findOne (m : string) : M (option User) :=
  fun o s =>
    match find_error o with
    | Some e => (Rejected e, s)
    | None => (Fulfilled (find (fun u => String.eqb (mobile u) m) (users s)), s)
    end.

(** [User.findById(id)]; an [undefined] id finds nothing. *)
Definition findById (id : Field) : M (option User) :=
  fun o s =>
    match find_error o with
    | Some e => (Rejected e, s)
    | None =>
        (Fulfilled
           match id with
           | Some i => find (fun u => String.eqb (_id u) i) (users s)
           | None => None
           end, s)
    end.

(** [User.find({ kycStatus })] *)
Definition find_by_status (st : string) : M (list User) :=
  fun o s =>
    match find_error o with
    | Some e => (Rejected e, s)
    | None => (Fulfilled (filter (fun u => String.eqb (kycStatus u) st) (users s)), s)
    end.

Definition duplicate_key : JsError := ErrorObj "E11000 duplicate key error".

(** [save()] of a new document: the unique indexes on [_id] and on [mobile]
    (line 32) refuse a duplicate. *)
Definition insert (u : User) : M unit :=
  fun o s =>
    match save_error o with
    | Some e => (Rejected e, s)
    | None =>
        if existsb (fun u' => String.eqb (_id u') (_id u) ||
                              String.eqb (mobile u') (mobile u)) (users s)
        then (Rejected duplicate_key, s)
        else (Fulfilled tt, {| users := users s ++ [u]; errors := errors s |})
    end.

(** [save()] of a document that was found: the stored document with its
    [_id] is replaced. *)
Definition save (u : User) : M unit :=
  fun o s =>
    match save_error o with
    | Some e => (Rejected e, s)
    | None =>
        (Fulfilled tt,
         {| users := map (fun u' => if String.eqb (_id u') (_id u) then u else u')
                         (users s);
            errors := errors s |})
    end.

Definition genSalt (rounds : N) : M string :=
  fun o s =>
    match bcrypt_error o with
    | Some e => (Rejected e, s)
    | None => (Fulfilled (salt o rounds), s)
    end.

Definition bcrypt_hash (pw slt : string) : M string :=
  fun o s =>
    match bcrypt_error o with
    | Some e => (Rejected e, s)
    | None => (Fulfilled (hash o pw slt), s)
    end.

Definition bcrypt_compare (pw hashed : string) : M bool :=
  fun o s =>
    match bcrypt_error o with
    | Some e => (Rejected e, s)
    | None => (Fulfilled (compare o pw hashed), s)
    end.

(** [new User({ fullName, mobile, password })] with the schema's defaults. *)
Definition new_User (name m hashed : string) : M User :=
  fun o s =>
    (Fulfilled {| _id := new_id o; fullName := name; mobile := m;
                  password := hashed; kycStatus := "Not Started";
                  documents := []; faceScan := None; rejectionReason := None |},
     s).

(** 1. [POST /api/register] (lines 69-98). *)
Definition register (name m pw : Field) : M Response :=
  try_catch
    (if falsy name || falsy m || falsy pw
     then respond 400 (Message "All fields are required.")
     else
       existingUser <- findOne (str m) ;;
       match existingUser with
       | Some _ => respond 409 (Message "Mobile number already registered.")
       | None =>
           slt <- genSalt 10 ;;
           hashedPassword <- bcrypt_hash (str pw) slt ;;
           newUser <- new_User (str name) (str m) hashedPassword ;;
           insert newUser ;;;
           respond 201 (Message "User registered successfully!")
       end)
    (fun error =>
       console_error "Registration Error:" error ;;;
       respond 500 (Message "Server error during registration.")).

(** 2. [POST /api/login] (lines 101-135). *)
Definition login (m pw : Field) : M Response :=
  try_catch
    (if falsy m || falsy pw
     then respond 400 (Message "Mobile and password are required.")
     else
       user <- findOne (str m) ;;
       match user with
       | None => respond 404 (Message "User not found. Please register.")
       | Some u =>
           isMatch <- bcrypt_compare (str pw) (password u) ;;
           if negb isMatch
           then respond 401 (Message "Invalid credentials.")
           else respond 200 (LoginOk "Login successful!"
                                     (_id u) (fullName u) (mobile u) (kycStatus u))
       end)
    (fun error =>
       console_error "Login Error:" error ;;;
       respond 500 (Message "Server error during login.")).

(** The status after an upload (lines 155-157 and 182-184). *)
Definition after_upload (st : string) : string :=
  if String.eqb st "Not Started" || String.eqb st "Rejected"
  then "In Progress" else st.

(** 3. [POST /api/kyc/document-upload] (lines 138-166); [file] is
    [req.file.path] as the upload middleware left it. *)
Definition document_upload (userId type : Field) (file : option string) : M Response :=
  try_catch
    (match file with
     | None => respond 400 (Message "No file uploaded.")
     | Some path =>
         user <- findById userId ;;
         match user with
         | None => respond 404 (Message "User not found.")
         | Some u =>
             save {| _id := _id u; fullName := fullName u; mobile := mobile u;
                     password := password u;
                     kycStatus := after_upload (kycStatus u);
                     documents := documents u ++
                                  [{| docType := type; filePath := path |}];
                     faceScan := faceScan u;
                     rejectionReason := rejectionReason u |} ;;;
             respond 200 (Message "Document uploaded successfully.")
         end
     end)
    (fun error =>
       console_error "Document Upload Error:" error ;;;
       respond 500 (Message "Server error during document upload.")).

(** 4. [POST /api/kyc/face-scan] (lines 169-193). *)
Definition face_scan (userId : Field) (file : option string) : M Response :=
  try_catch
    (match file with
     | None => respond 400 (Message "No face scan image uploaded.")
     | Some path =>
         user <- findById userId ;;
         match user with
         | None => respond 404 (Message "User not found.")
         | Some u =>
             save {| _id := _id u; fullName := fullName u; mobile := mobile u;
                     password := password u;
                     kycStatus := after_upload (kycStatus u);
                     documents := documents u;
                     faceScan := Some path;
                     rejectionReason := rejectionReason u |} ;;;
             respond 200 (Message "Face scan uploaded successfully.")
         end
     end)
    (fun error =>
       console_error "Face Scan Upload Error:" error ;;;
       respond 500 (Message "Server error during face scan upload.")).

(** 5. [GET /api/admin/pending-kyc] (lines 198-206). *)
Definition pending_kyc : M Response :=
  try_catch
    (pendingUsers <- find_by_status "In Progress" ;;
     respond 200 (Users pendingUsers))
    (fun error =>
       console_error "Admin Fetch Error:" error ;;;
       respond 500 (Message "Server error fetching pending applications.")).

(** 6. [POST /api/admin/update-kyc-status] (lines 209-240). *)
Definition update_kyc_status (userId st reason : Field) : M Response :=
  try_catch
    (if falsy userId || falsy st
     then respond 400 (Message "User ID and status are required.")
     else if negb (existsb (String.eqb (str st)) ["Verified"; "Rejected"])
     then respond 400 (Message "Invalid status value.")
     else
       user <- findById userId ;;
       match user with
       | None => respond 404 (Message "User not found.")
       | Some u =>
           save {| _id := _id u; fullName := fullName u; mobile := mobile u;
                   password := password u;
                   kycStatus := str st;
                   documents := documents u;
                   faceScan := faceScan u;
                   rejectionReason :=
                     if String.eqb (str st) "Rejected"
                     then Some (if falsy reason then "No reason provided."
                                else str reason)
                     else None |} ;;;
           respond 200 (Message ("User KYC status updated to " ++ str st ++ "."))
       end)
    (fun error =>
       console_error "Update Status Error:" error ;;;
       respond 500 (Message "Server error updating KYC status.")).

(** 7. [GET /api/user/status/:userId] (lines 244-255). *)
Definition user_status (userId : string) : M Response :=
  try_catch
    (user <- findById (Some userId) ;;
     match user with
     | None => respond 404 (Message "User not found")
     | Some u =>
         respond 200 (StatusOf (_id u) (kycStatus u) (fullName u) (rejectionReason u))
     end)
    (fun error =>
       console_error "Get User Status Error:" error ;;;
       respond 500 (Message "Server error fetching user status.")).

(** [String.prototype.toLowerCase] on the letters A-Z; other characters are
    left as they are. *)
Definition lower (c : ascii) : ascii :=
  let n := N_of_ascii c in
  if (65 <=? n) && (n <=? 90) then ascii_of_N (n + 32) else c.

Fixpoint toLowerCase (s : string) : string :=
  match s with
  | EmptyString => EmptyString
  | String c rest => String (lower c) (toLowerCase rest)
  end.

(** [s.includes(sub)] *)
Fixpoint includes (s sub : string) : bool :=
  String.prefix sub s ||
  match s with
  | EmptyString => false
  | String _ rest => includes rest sub
  end.

Definition reply_default : string :=
  "I'm sorry, I don't have the answer to that. You can ask me about which documents to use, how long verification takes, or if your data is safe.".
Definition reply_documents : string :=
  "You can use your Aadhaar Card, PAN Card, Driving License, or Voter ID card. Make sure the photo is clear and all details are readable.".
Definition reply_time : string :=
  "After you upload everything, it usually takes our team about 24 hours to check your details. We will update the status on your app as soon as it is done.".
Definition reply_safe : string :=
  "Yes, your information is very safe with us. We use strong encryption to protect your documents and photos, just like a bank does.".
Definition reply_hello : string :=
  "Hello! How can I help you with your KYC today? You can ask me about documents, safety, or how long the process takes.".
Definition reply_face : string :=
  "For the face scan, please make sure you are in a place with good light. Look directly at the camera and hold still. This helps us confirm it's really you.".

(** The keyword chain of the help route (lines 263-275). *)
Definition help_reply (prompt : string) : string :=
  let lowerCasePrompt := toLowerCase prompt in
  if includes lowerCasePrompt "document" || includes lowerCasePrompt "aadhaar" ||
     includes lowerCasePrompt "pan"
  then reply_documents
  else if includes lowerCasePrompt "time" || includes lowerCasePrompt "how long" ||
          includes lowerCasePrompt "kitna time"
  then reply_time
  else if includes lowerCasePrompt "safe" || includes lowerCasePrompt "secure" ||
          includes lowerCasePrompt "data"
  then reply_safe
  else if includes lowerCasePrompt "hello" || includes lowerCasePrompt "help" ||
          includes lowerCasePrompt "hi"
  then reply_hello
  else if includes lowerCasePrompt "face scan" || includes lowerCasePrompt "photo"
  then reply_face
  else reply_default.

(** 8. [POST /api/ai/help] (lines 258-279); the reply is sent after a
    delay, which is not modelled.  The handler has no [try]/[catch]: on a
    truthy prompt that is not a string [prompt.toLowerCase] is not a
    function, the handler throws and no response is sent. *)
Definition help (prompt : Json) : M Response :=
  if falsy_json prompt
  then respond 400 (Message "Prompt is required.")
  else
    match prompt with
    | JString s => respond 200 (Reply (help_reply s))
    | _ => throw (ErrorObj "TypeError: prompt.toLowerCase is not a function")
    end.

(** The requests the server answers. *)
Inductive Request : Type :=
| Register (name m pw : Field)
| Login (m pw : Field)
| DocumentUpload (userId type : Field) (file : option string)
| FaceScan (userId : Field) (file : option string)
| PendingKyc
| UpdateKycStatus (userId st reason : Field)
| UserStatus (userId : string)
| Help (prompt : Json).

Definition handle (r : Request) : M Response :=
  match r with
  | Register name m pw => register name m pw
  | Login m pw => login m pw
  | DocumentUpload userId type file => document_upload userId type file
  | FaceScan userId file => face_scan userId file
  | PendingKyc => pending_kyc
  | UpdateKycStatus userId st reason => update_kyc_status userId st reason
  | UserStatus userId => user_status userId
  | Help prompt => help prompt
  end.

(** Requests served one after the other, each with its own oracle: the state
    reached. *)
Fixpoint serve (reqs : list (Request * Oracle)) (s : State) : State :=
  match reqs with
  | [] => s
  | (r, o) :: rest => serve rest (snd (handle r o s))
  end.

(** The response to a request; [None] when the handler throws and no
    response is sent. *)
Definition response (r : Request) (o : Oracle) (s : State) : option Response :=
  match fst (handle r o s) with
  | Fulfilled resp => Some resp
  | Rejected _ => None
  end.

(** What the collection keeps true. *)
Definition valid (us : list User) : Prop :=
  NoDup (map _id us) /\ NoDup (map mobile us) /\
  Forall (fun u => In (kycStatus u) statuses) us.

(** A request that succeeded: the response's status is 200 or 201. *)
Definition success (o : option Response) : bool :=
  match o with
  | Some r => (status r =? 200) || (status r =? 201)
  | None => false
  end.

(** The one request that gets no answer: a help request whose prompt is a
    truthy value other than a string. *)
Definition unanswered (r : Request) : bool :=
  match r with
  | Help (JOther true) => true
  | _ => false
  end.

(** The routes that only read. *)
Definition reads_only (r : Request) : bool :=
  match r with
  | Login _ _ | PendingKyc | UserStatus _ | Help _ => true
  | _ => false
  end.

Definition is_update (r : Request) : bool :=
  match r with
  | UpdateKycStatus _ _ _ => true
  | _ => false
  end.

(** A decision of the admin: the status is Verified or Rejected. *)
Definition decided (st : string) : bool :=
  String.eqb st "Verified" || String.eqb st "Rejected".

(** The rejection reason goes with the status: a rejected user has a reason
    that is not empty, a verified user has none. *)
Definition reason_matches (u : User) : Prop :=
  (kycStatus u = "Rejected" ->
   exists r, rejectionReason u = Some r /\ r <> "") /\
  (kycStatus u = "Verified" -> rejectionReason u = None).

(** What identifies a user and lets them log in. *)
Definition credentials (u : User) : string * string * string * string :=
  (_id u, fullName u, mobile u, password u).

(** A collaborator without failures. *)
Definition calm (o : Oracle) : Prop :=
  find_error o = None /\ save_error o = None /\ bcrypt_error o = None.

End Server.

Module ServerExamples.
Import Server.

(** A stand-in for bcrypt: the hash is the salt followed by the password. *)
Definition toy_oracle (id : string) : Oracle :=
  {| find_error := None; save_error := None; bcrypt_error := None;
     new_id := id;
     salt := fun _ => "$2a$10$";
     hash := fun pw slt => (slt ++ pw)%string;
     compare := fun pw hashed => String.eqb hashed ("$2a$10$" ++ pw) |}.

(** The same, with the database down. *)
Definition db_down (id : string) : Oracle :=
  {| find_error := Some (ErrorObj "MongoNetworkError");
     save_error := Some (ErrorObj "MongoNetworkError");
     bcrypt_error := None;
     new_id := id;
     salt := fun _ => "$2a$10$";
     hash := fun pw slt => (slt ++ pw)%string;
     compare := fun pw hashed => String.eqb hashed ("$2a$10$" ++ pw) |}.

Definition empty : State := {| users := []; errors := [] |}.

Definition asha : User :=
  {| _id := "u1"; fullName := "Asha"; mobile := "9000000001";
     password := "$2a$10$secret"; kycStatus := "Not Started";
     documents := []; faceScan := None; rejectionReason := None |}.

Definition one_user : State := {| users := [asha]; errors := [] |}.

(** Asha registers, uploads a document, is rejected, uploads again. *)
Definition history : list (Request * Oracle) :=
  [(Register (Some "Asha") (Some "9000000001") (Some "secret"), toy_oracle "u1");
   (DocumentUpload (Some "u1") (Some "aadhaar") (Some "uploads/u1-document-1.jpg"),
    toy_oracle "u2");
   (UpdateKycStatus (Some "u1") (Some "Rejected") (Some "Photo is blurred"),
    toy_oracle "u3");
   (Register (Some "Ravi") (Some "9000000001") (Some "other"), toy_oracle "u4");
   (FaceScan (Some "u1") (Some "uploads/u1-face-scan-2.png"), db_down "u5")].

End ServerExamples.

(** ** The worker's shell cache

    The [install] and [fetch] listeners of the worker (lines 288-313).
    CacheStorage and the network are the platform's: a cache maps the URL of
    a GET request to a response, [addAll] stores all of its responses or
    none, [caches.match] looks through the caches in the order they were
    created.  URLs are taken as already resolved. *)
Module Shell.

Definition CACHE_NAME : string := "bharat-kyc-cache-v1".

(** The list handed to [cache.addAll] (lines 295-302). *)
Definition shell : list string :=
  ["/"; "index.html"; "login.html"; "register.html"; "upload.html"].

Record Request : Type := mkRequest {
  request_url : string;
  request_method : string
}.

Record Response : Type := mkResponse {
  response_status : N;
  response_body : string
}.

Inductive Fetched : Type :=
| Failed (e : JsError)
| Answered (r : Response).

Definition Cache : Type := list (string * Response).

(** The caches by name, oldest first, and the requests sent to the network
    so far. *)
Record World : Type := mkWorld {
  caches : list (string * Cache);
  sent : list Request
}.

(** What the network answers to a request. *)
Definition Net : Type := Request -> Fetched.

Definition lookup (u : string) (c : Cache) : option Response :=
  match find (fun entry => String.eqb (fst entry) u) c with
  | Some entry => Some (snd entry)
  | None => None
  end.

(** [cache.put]: the entry for the URL is replaced or added. *)
Definition put (u : string) (r : Response) (c : Cache) : Cache :=
  (u, r) :: filter (fun entry => negb (String.eqb (fst entry) u)) c.

(** [caches.open(name)]: the cache is created when it is not there. *)
Definition open (name : string) (cs : list (string * Cache)) : list (string * Cache) :=
  if existsb (fun nc => String.eqb (fst nc) name) cs then cs else cs ++ [(name, [])].

(** [caches.match(request)]: the first response some cache holds for the
    request; only GET requests match. *)
Fixpoint match_all (req : Request) (cs : list (string * Cache)) : option Response :=
  match cs with
  | [] => None
  | (_, c) :: rest =>
      if String.eqb (request_method req) "GET"
      then match lookup (request_url req) c with
           | Some r => Some r
           | None => match_all req rest
           end
      else None
  end.

(** The responses [addAll] fetches, in the order of the URLs; [None] as soon
    as a request fails or a response is not ok. *)
Fixpoint fetch_all (net : Net) (urls : list string) : option (list (string * Response)) :=
  match urls with
  | [] => Some []
  | u :: rest =>
      match net {| request_url := u; request_method := "GET" |} with
      | Failed _ => None
      | Answered r =>
          if ok (response_status r)
          then match fetch_all net rest with
               | Some rs => Some ((u, r) :: rs)
               | None => None
               end
          else None
      end
  end.

Definition update_cache (name : string) (f : Cache -> Cache)
    (cs : list (string * Cache)) : list (string * Cache) :=
  map (fun nc => if String.eqb (fst nc) name then (fst nc, f (snd nc)) else nc) cs.

(** The [install] listener (lines 292-305): the settled promise handed to
    [event.waitUntil]. *)
Definition on_install (net : Net) (w : World) : Settled unit * World :=
  let opened := open CACHE_NAME (caches w) in
  let asked := map (fun u => {| request_url := u; request_method := "GET" |}) shell in
  match fetch_all net shell with
  | Some responses =>
      (Fulfilled tt,
       {| caches := update_cache CACHE_NAME
                      (fun c => fold_left (fun c' ur => put (fst ur) (snd ur) c')
                                          responses c)
                      opened;
          sent := sent w ++ asked |})
  | None =>
      (Rejected (ErrorObj "TypeError: Failed to execute 'addAll' on 'Cache'"),
       {| caches := opened; sent := sent w ++ asked |})
  end.

(** The [fetch] listener (lines 307-313): the settled promise handed to
    [event.respondWith]. *)
Definition on_fetch (req : Request) (net : Net) (w : World)
  : Settled Response * World :=
  match match_all req (caches w) with
  | Some response => (Fulfilled response, w)
  | None =>
      let w' := {| caches := caches w; sent := sent w ++ [req] |} in
      match net req with
      | Failed e => (Rejected e, w')
      | Answered r => (Fulfilled r, w')
      end
  end.

(** No connectivity. *)
Definition offline : Net := fun _ => Failed (ErrorObj "TypeError: Failed to fetch").

(** A server that answers every request with the URL as the page. *)
Definition serving : Net :=
  fun req => Answered {| response_status := 200; response_body := request_url req |}.

Definition fresh : World := {| caches := []; sent := [] |}.

End Shell.
(** ** Facts about the object store *)

Module IDBFacts.
Import IDB.

Lemma ascending_bounds (l : list N) :
  forall lo hi, ascending lo l hi = true -> Forall (fun k => lo <= k < hi) l.
Proof.
  induction l as [| k l IH]; intros lo hi H; cbn in H; constructor.
  - apply andb_true_iff in H as [H _]. apply andb_true_iff in H as [H1 H2].
    apply N.leb_le in H1. apply N.ltb_lt in H2. lia.
  - apply andb_true_iff in H as [H H3]. apply andb_true_iff in H as [H1 _].
    apply N.leb_le in H1.
    apply IH in H3. eapply Forall_impl; [| exact H3]. cbn. intros; lia.
Qed.

Lemma ascending_weaken (l : list N) :
  forall lo lo' hi hi',
    lo' <= lo -> hi <= hi' ->
    ascending lo l hi = true -> ascending lo' l hi' = true.
Proof.
  destruct l as [| k l]; intros lo lo' hi hi' Hlo Hhi H; cbn in *; [reflexivity |].
  apply andb_true_iff in H as [H H3]. apply andb_true_iff in H as [H1 H2].
  apply N.leb_le in H1. apply N.ltb_lt in H2.
  rewrite !andb_true_iff. repeat split.
  - apply N.leb_le. lia.
  - apply N.ltb_lt. lia.
  - revert H3. generalize (k + 1). clear - Hhi.
    induction l as [| k' l IH]; intros lo H; cbn in *; [reflexivity |].
    apply andb_true_iff in H as [H H3]. apply andb_true_iff in H as [H1 H2].
    apply N.ltb_lt in H2.
    rewrite H1, (IH _ H3), andb_true_r. cbn. apply N.ltb_lt. lia.
Qed.

Lemma ascending_NoDup (l : list N) :
  forall lo hi, ascending lo l hi = true -> NoDup l.
Proof.
  induction l as [| k l IH]; intros lo hi H; cbn in H; constructor.
  - apply andb_true_iff in H as [_ H3]. apply ascending_bounds in H3.
    intros Hin. rewrite Forall_forall in H3. apply H3 in Hin. lia.
  - apply andb_true_iff in H as [_ H3]. eauto.
Qed.

Lemma ascending_filter (f : N -> bool) (l : list N) :
  forall lo hi, ascending lo l hi = true -> ascending lo (filter f l) hi = true.
Proof.
  induction l as [| k l IH]; intros lo hi H; cbn in *; [reflexivity |].
  apply andb_true_iff in H as [H H3]. apply andb_true_iff in H as [H1 H2].
  destruct (f k); cbn.
  - rewrite H1, H2. cbn. auto.
  - apply IH. eapply ascending_weaken; [| | exact H3].
    + apply N.leb_le in H1. lia.
    + lia.
Qed.

Lemma ascending_snoc (l : list N) :
  forall lo k, lo <= k -> ascending lo l k = true ->
               ascending lo (l ++ [k]) (k + 1) = true.
Proof.
  induction l as [| k' l IH]; intros lo k Hlo H; cbn in *.
  - rewrite !andb_true_iff. repeat split.
    + apply N.leb_le. lia.
    + apply N.ltb_lt. lia.
  - apply andb_true_iff in H as [H H3]. apply andb_true_iff in H as [H1 H2].
    apply N.ltb_lt in H2.
    rewrite H1. cbn. rewrite andb_true_iff. split.
    + apply N.ltb_lt. lia.
    + apply IH; [lia | assumption].
Qed.

(** Storing under a key above all present keys appends the record. *)
Lemma insert_record_above (k : N) (v : StoredValue) (l : list (N * StoredValue)) :
  Forall (fun k' => k' < k) (map fst l) ->
  insert_record k v l = l ++ [(k, v)].
Proof.
  induction l as [| [k' v'] l IH]; intros H; cbn; [reflexivity |].
  inversion H as [| ? ? Hk Hl]; subst. cbn in Hk.
  destruct (N.ltb_spec k k'); [lia |].
  destruct (N.eqb_spec k k'); [lia |].
  now rewrite IH.
Qed.

Lemma keys_delete (k : N) (s : ObjectStore) :
  keys (delete k s) = filter (fun k' => negb (k' =? k)) (keys s).
Proof.
  unfold keys, delete. cbn. induction (records s) as [| [k' v'] l IH]; cbn;
    [reflexivity |].
  destruct (k' =? k); cbn; now rewrite IH.
Qed.

Lemma wf_createObjectStore : wf createObjectStore.
Proof. reflexivity. Qed.

Lemma wf_delete (k : N) (s : ObjectStore) : wf s -> wf (delete k s).
Proof.
  unfold wf. intros H. rewrite keys_delete. cbn [keygen delete].
  now apply ascending_filter.
Qed.

Lemma wf_below (s : ObjectStore) :
  wf s -> Forall (fun k => k < keygen s) (keys s).
Proof.
  intros H. apply ascending_bounds in H.
  eapply Forall_impl; [| exact H]. cbn. intros; lia.
Qed.

Lemma put_appends (v : StoredValue) (s : ObjectStore) :
  wf s -> records (snd (put v s)) = records s ++ [(keygen s, v)].
Proof.
  intros H. cbn. apply insert_record_above. now apply wf_below.
Qed.

Lemma wf_put (v : StoredValue) (s : ObjectStore) : wf s -> wf (snd (put v s)).
Proof.
  intros H. unfold wf, keys. rewrite put_appends by assumption.
  rewrite map_app. cbn [map fst put snd keygen].
  apply ascending_snoc; [lia | exact H].
Qed.

Lemma wf_apply (o : Op) (s : ObjectStore) : wf s -> wf (apply o s).
Proof. destruct o; cbn [apply]; auto using wf_put, wf_delete. Qed.

Lemma wf_run (ops : list Op) : forall s, wf s -> wf (run ops s).
Proof.
  induction ops as [| o ops IH]; intros s H; cbn; [assumption |].
  apply IH. now apply wf_apply.
Qed.

Lemma wf_NoDup (s : ObjectStore) : wf s -> NoDup (keys s).
Proof. apply ascending_NoDup. Qed.

(** Deleting a key that has no record changes nothing. *)
Lemma delete_absent (k : N) (s : ObjectStore) :
  ~ In k (keys s) -> delete k s = s.
Proof.
  intros H. destruct s as [l g]. unfold delete, keys in *. cbn in *. f_equal.
  induction l as [| [k' v'] l IH]; cbn in *; [reflexivity |].
  destruct (N.eqb_spec k' k) as [-> | Hne]; cbn.
  - exfalso. auto.
  - f_equal. apply IH. tauto.
Qed.

Lemma delete_removes (k : N) (s : ObjectStore) : ~ In k (keys (delete k s)).
Proof.
  rewrite keys_delete, filter_In. intros [_ H].
  now rewrite N.eqb_refl in H.
Qed.

Lemma delete_delete (k : N) (s : ObjectStore) :
  delete k (delete k s) = delete k s.
Proof. apply delete_absent, delete_removes. Qed.

Lemma in_delete (k : N) (s : ObjectStore) (kv : N * StoredValue) :
  In kv (records (delete k s)) <-> In kv (records s) /\ fst kv <> k.
Proof.
  unfold delete. cbn. rewrite filter_In, negb_true_iff, N.eqb_neq. tauto.
Qed.

End IDBFacts.

(** ** What one drain cycle does *)

Lemma objectStore_upload_queue (database : IDBDatabase) (env : Env) (w : World) :
  db w <> None ->
  objectStore database UPLOAD_QUEUE_STORE env w =
  (Fulfilled (StoreOf database UPLOAD_QUEUE_STORE), w).
Proof.
  unfold objectStore. destruct (db w); [| contradiction].
  now rewrite String.eqb_refl.
Qed.

Lemma replay_db_Some (env : Env) (req : QueuedRequest) (d : option IDB.ObjectStore) :
  d <> None -> replay_db env req d <> None.
Proof.
  unfold replay_db. destruct (removes env req); [| auto].
  destruct d; cbn; [discriminate | auto].
Qed.

Lemma replay_spec (database : IDBDatabase) (env : Env) (req : QueuedRequest)
    (w : World) :
  db w <> None ->
  replay database req env w =
  (Fulfilled tt,
   {| db := replay_db env req (db w);
      trace := trace w ++ replay_events env req |}).
Proof.
  intros Hdb.
  unfold replay, try_catch, bind, fetch, replay_db, removes, replay_events, succeeded.
  destruct (net env (key req) (value req)) as [e | status]; cbn [negb andb].
  - unfold emit; cbn. now rewrite <- app_assoc.
  - destruct (ok status); cbn [negb andb].
    + rewrite objectStore_upload_queue by exact Hdb.
      unfold deleteFromStore, emit; cbn.
      destruct (delete_error env (key req)); cbn;
        now rewrite <- !app_assoc.
    + unfold throw, emit; cbn. now rewrite <- app_assoc.
Qed.

Lemma promise_all_replay (database : IDBDatabase) (env : Env)
    (reqs : list QueuedRequest) :
  forall w,
    db w <> None ->
    promise_all (map (replay database) reqs) env w =
    (Fulfilled (map (fun _ => tt) reqs),
     {| db := drain_db env reqs (db w);
        trace := trace w ++ List.concat (map (replay_events env) reqs) |}).
Proof.
  induction reqs as [| req reqs IH]; intros w Hdb; cbn.
  - rewrite app_nil_r. now destruct w.
  - rewrite replay_spec by exact Hdb.
    rewrite IH by (now apply replay_db_Some). cbn.
    now rewrite <- app_assoc.
Qed.

Lemma cursor_loop_app (rest : list (N * StoredValue)) :
  forall items,
    cursor_loop rest items =
    items ++ map (fun kv => {| value := snd kv; key := fst kv |}) rest.
Proof.
  induction rest as [| [k v] rest IH]; intros items; cbn.
  - now rewrite app_nil_r.
  - rewrite IH, <- app_assoc. reflexivity.
Qed.

Lemma cursor_loop_snapshot (q : list (N * StoredValue)) :
  cursor_loop q [] = snapshot q.
Proof. now rewrite cursor_loop_app. Qed.

Lemma queue_opened (w : World) : IDB.records (opened w) = queue w.
Proof. unfold opened, queue. now destruct (db w). Qed.

(** A cycle whose enumeration goes through resolves, and this is its world. *)
Lemma processUploadQueue_resolves (env : Env) (w : World) :
  open_error env = None ->
  cursor_error env = None ->
  processUploadQueue env w =
  (Fulfilled (map (fun _ => tt) (snapshot (queue w))),
   {| db := drain_db env (snapshot (queue w)) (Some (opened w));
      trace := trace w ++ List.concat (map (replay_events env) (snapshot (queue w))) |}).
Proof.
  intros Ho Hc.
  unfold processUploadQueue, bind, openDB.
  rewrite Ho. rewrite <- queue_opened. unfold opened.
  destruct (db w) as [s |] eqn:Hdb;
    rewrite objectStore_upload_queue by (cbn [db]; congruence);
    unfold getAllFromStore; rewrite Hc; cbn [db]; try rewrite Hdb;
    unfold IDB.openCursor; rewrite cursor_loop_snapshot;
    rewrite promise_all_replay by (cbn [db]; congruence);
    cbn [db trace]; try rewrite Hdb; reflexivity.
Qed.

(** A cycle whose enumeration fails rejects with that error and changes
    nothing but, on the very first open, the creation of the empty store. *)
Lemma processUploadQueue_open_error (env : Env) (w : World) (code : string) :
  open_error env = Some code ->
  processUploadQueue env w = (Rejected (Str ("IndexedDB error: " ++ code)), w).
Proof.
  intros Ho. unfold processUploadQueue, bind, openDB. now rewrite Ho.
Qed.

Lemma processUploadQueue_cursor_error (env : Env) (w : World) (e : JsError) :
  open_error env = None ->
  cursor_error env = Some e ->
  processUploadQueue env w =
  (Rejected e, {| db := Some (opened w); trace := trace w |}).
Proof.
  intros Ho Hc.
  unfold processUploadQueue, bind, openDB, opened.
  rewrite Ho. destruct (db w) as [s |] eqn:Hdb;
    rewrite objectStore_upload_queue by (cbn [db]; congruence);
    unfold getAllFromStore; rewrite Hc; try reflexivity.
  destruct w; cbn in *; now subst.
Qed.

Lemma filter_filter {A} (f g : A -> bool) (l : list A) :
  filter f (filter g l) = filter (fun x => g x && f x) l.
Proof.
  induction l as [| x l IH]; cbn; [reflexivity |].
  destruct (g x); cbn; [destruct (f x) |]; now rewrite IH.
Qed.

Lemma filter_true {A} (l : list A) : filter (fun _ => true) l = l.
Proof. induction l; cbn; congruence. Qed.

(** The store after a cycle: the records that survive, in their order; the
    key generator as it was. *)
Lemma drain_db_Some (env : Env) (reqs : list QueuedRequest) :
  forall s,
    drain_db env reqs (Some s) =
    Some {| IDB.records := filter (survives env reqs) (IDB.records s);
            IDB.keygen := IDB.keygen s |}.
Proof.
  induction reqs as [| req reqs IH]; intros s; cbn.
  - unfold survives; cbn. rewrite filter_true. now destruct s.
  - unfold replay_db at 2. destruct (removes env req) eqn:Hr; cbn.
    + fold (drain_db env reqs (Some (IDB.delete (key req) s))). rewrite IH.
      cbn. rewrite filter_filter. do 2 f_equal.
      apply filter_ext. intros kv. unfold survives. cbn. rewrite Hr. cbn.
      rewrite (N.eqb_sym (key req)). now rewrite negb_orb.
    + fold (drain_db env reqs (Some s)). rewrite IH. do 2 f_equal.
      apply filter_ext. intros kv. unfold survives. cbn. now rewrite Hr.
Qed.

Lemma survives_false (env : Env) (reqs : list QueuedRequest) (kv : N * StoredValue) :
  survives env reqs kv = false <->
  exists req, In req reqs /\ removes env req = true /\ key req = fst kv.
Proof.
  unfold survives. rewrite negb_false_iff, existsb_exists.
  split; intros [req [Hin H]]; exists req; split; auto.
  - apply andb_true_iff in H as [H1 H2]. apply N.eqb_eq in H2. auto.
  - destruct H as [H1 H2]. rewrite H1, H2, N.eqb_refl. reflexivity.
Qed.

Lemma in_snapshot (q : list (N * StoredValue)) (req : QueuedRequest) :
  In req (snapshot q) <-> In (key req, value req) q.
Proof.
  unfold snapshot. rewrite in_map_iff. split.
  - intros [[k v] [<- Hin]]. exact Hin.
  - intros Hin. exists (key req, value req). split; [now destruct req | exact Hin].
Qed.

(** In a well-formed queue a key has one record. *)
Lemma queue_functional (w : World) (k : N) (v v' : StoredValue) :
  wf_world w -> In (k, v) (queue w) -> In (k, v') (queue w) -> v = v'.
Proof.
  unfold wf_world, queue. destruct (db w) as [s |]; [| contradiction].
  intros Hwf. apply IDBFacts.wf_NoDup in Hwf. unfold IDB.keys in Hwf.
  induction (IDB.records s) as [| [k0 v0] l IH]; cbn in *; [contradiction |].
  inversion Hwf as [| ? ? Hnotin Hnd]; subst.
  intros [H1 | H1] [H2 | H2].
  - congruence.
  - inversion H1; subst. exfalso. apply Hnotin.
    change k with (fst (k, v')). now apply in_map.
  - inversion H2; subst. exfalso. apply Hnotin.
    change k with (fst (k, v)). now apply in_map.
  - auto.
Qed.

(** Whether the record of a queued entry survives a cycle over the snapshot
    of its queue is decided by that entry's own replay. *)
Lemma survives_own (env : Env) (w : World) (k : N) (v : StoredValue) :
  wf_world w -> In (k, v) (queue w) ->
  survives env (snapshot (queue w)) (k, v) =
  negb (removes env {| value := v; key := k |}).
Proof.
  intros Hwf Hin.
  destruct (removes env {| value := v; key := k |}) eqn:Hr; cbn.
  - apply survives_false. exists {| value := v; key := k |}.
    rewrite in_snapshot. auto.
  - destruct (survives env (snapshot (queue w)) (k, v)) eqn:Hs; [reflexivity |].
    apply survives_false in Hs as [req [Hreq [Hrem Hk]]]. cbn in Hk.
    apply in_snapshot in Hreq. rewrite Hk in Hreq.
    pose proof (queue_functional w k _ _ Hwf Hreq Hin) as Hv.
    destruct req as [v' k']; cbn in *; subst. congruence.
Qed.

Lemma wf_world_opened (w : World) : wf_world w -> IDB.wf (opened w).
Proof.
  unfold wf_world, opened. destruct (db w); auto using IDBFacts.wf_createObjectStore.
Qed.

Lemma wf_filter_records (f : N * StoredValue -> bool) (s : IDB.ObjectStore) :
  IDB.wf s ->
  IDB.wf {| IDB.records := filter f (IDB.records s); IDB.keygen := IDB.keygen s |}.
Proof.
  unfold IDB.wf, IDB.keys. cbn. generalize 0, (IDB.keygen s).
  induction (IDB.records s) as [| [k v] l IH]; intros lo hi H; cbn in *;
    [reflexivity |].
  apply andb_true_iff in H as [H H3]. apply andb_true_iff in H as [H1 H2].
  destruct (f (k, v)); cbn.
  - rewrite H1, H2. cbn. auto.
  - apply IH. eapply IDBFacts.ascending_weaken; [| | exact H3].
    + apply N.leb_le in H1. lia.
    + lia.
Qed.

(** A cycle, however it ends, leaves a world of the same shape: the trace
    only grows, the records only shrink, the store stays well-formed. *)
Lemma processUploadQueue_cases (env : Env) (w : World) :
  (exists code,
      open_error env = Some code /\
      processUploadQueue env w = (Rejected (Str ("IndexedDB error: " ++ code)), w)) \/
  (exists e,
      open_error env = None /\ cursor_error env = Some e /\
      processUploadQueue env w =
      (Rejected e, {| db := Some (opened w); trace := trace w |})) \/
  (open_error env = None /\ cursor_error env = None /\
   processUploadQueue env w =
   (Fulfilled (map (fun _ => tt) (snapshot (queue w))),
    {| db := Some {| IDB.records :=
                       filter (survives env (snapshot (queue w))) (queue w);
                     IDB.keygen := IDB.keygen (opened w) |};
       trace := trace w ++
                List.concat (map (replay_events env) (snapshot (queue w))) |})).
Proof.
  destruct (open_error env) as [code |] eqn:Ho.
  - left. exists code. split; [reflexivity |].
    now apply processUploadQueue_open_error.
  - right. destruct (cursor_error env) as [e |] eqn:Hc.
    + left. exists e. repeat split. now apply processUploadQueue_cursor_error.
    + right. repeat split.
      rewrite processUploadQueue_resolves, drain_db_Some, queue_opened by assumption.
      reflexivity.
Qed.

Lemma wf_world_cycle (env : Env) (w : World) :
  wf_world w -> wf_world (snd (processUploadQueue env w)).
Proof.
  intros Hwf.
  destruct (processUploadQueue_cases env w)
    as [[code [_ ->]] | [[e [_ [_ ->]]] | [_ [_ ->]]]]; cbn [snd].
  - assumption.
  - unfold wf_world; cbn [db]. now apply wf_world_opened.
  - unfold wf_world; cbn [db]. rewrite <- queue_opened.
    apply wf_filter_records. now apply wf_world_opened.
Qed.

(** An entry whose own replay does not remove it is still queued after the
    cycle, however the cycle ends. *)
Lemma cycle_keeps (env : Env) (w : World) (k : N) (v : StoredValue) :
  wf_world w -> In (k, v) (queue w) ->
  removes env {| value := v; key := k |} = false ->
  In (k, v) (queue (snd (processUploadQueue env w))).
Proof.
  intros Hwf Hin Hr.
  destruct (processUploadQueue_cases env w)
    as [[code [_ ->]] | [[e [_ [_ ->]]] | [_ [_ ->]]]]; cbn [snd].
  - assumption.
  - unfold queue at 1; cbn [db]. now rewrite queue_opened.
  - unfold queue at 1; cbn [db IDB.records]. apply filter_In. split; [assumption |].
    rewrite survives_own by assumption. now rewrite Hr.
Qed.

(** ** The drain cycle: replay, deletion, failures *)

Lemma skipn_length_app {A} (l x : list A) : skipn (List.length l) (l ++ x) = x.
Proof. induction l; cbn; auto. Qed.

Section Resolved.
Variables (env : Env) (w : World).
Hypothesis Hopen : open_error env = None.
Hypothesis Hcursor : cursor_error env = None.

Lemma cycle_resolved :
  processUploadQueue env w =
  (Fulfilled (map (fun _ => tt) (snapshot (queue w))),
   {| db := Some {| IDB.records :=
                      filter (survives env (snapshot (queue w))) (queue w);
                    IDB.keygen := IDB.keygen (opened w) |};
      trace := trace w ++
               List.concat (map (replay_events env) (snapshot (queue w))) |}).
Proof.
  destruct (processUploadQueue_cases env w)
    as [[code [H _]] | [[e [_ [H _]]] | [_ [_ H]]]]; congruence.
Qed.

Lemma cycle_resolved_fst :
  fst (processUploadQueue env w) =
  Fulfilled (map (fun _ => tt) (snapshot (queue w))).
Proof. now rewrite cycle_resolved. Qed.

Lemma cycle_resolved_queue :
  queue (snd (processUploadQueue env w)) =
  filter (survives env (snapshot (queue w))) (queue w).
Proof. now rewrite cycle_resolved. Qed.

Lemma cycle_resolved_events :
  cycle_events env w =
  List.concat (map (replay_events env) (snapshot (queue w))).
Proof.
  unfold cycle_events. rewrite cycle_resolved. cbn [snd trace].
  apply skipn_length_app.
Qed.

Lemma cycle_resolved_in (k : N) (v : StoredValue) :
  wf_world w -> In (k, v) (queue w) ->
  (In (k, v) (queue (snd (processUploadQueue env w))) <->
   removes env {| value := v; key := k |} = false).
Proof.
  intros Hwf Hin. rewrite cycle_resolved_queue, filter_In.
  rewrite survives_own, negb_true_iff by assumption. tauto.
Qed.

Lemma cycle_resolved_has_key (k : N) (v : StoredValue) :
  wf_world w -> In (k, v) (queue w) ->
  (has_key k (snd (processUploadQueue env w)) <->
   removes env {| value := v; key := k |} = false).
Proof.
  intros Hwf Hin. rewrite <- cycle_resolved_in by assumption.
  unfold has_key. split.
  - rewrite in_map_iff. intros [[k' v'] [Hk Hin']]. cbn in Hk. subst k'.
    assert (Hq : In (k, v') (queue w)).
    { rewrite cycle_resolved_queue in Hin'. now apply filter_In in Hin'. }
    now rewrite (queue_functional w k v v' Hwf Hin Hq).
  - intros H. change k with (fst (k, v)). now apply in_map.
Qed.
End Resolved.

Lemma in_replay_events_fetch (env : Env) (req : QueuedRequest) (k : N) (v : StoredValue) :
  In (EvFetch k v) (replay_events env req) <-> key req = k /\ value req = v.
Proof.
  unfold replay_events. split.
  - intros [H | H]; [inversion H; auto |]. exfalso.
    destruct (net env (key req) (value req)) as [e | status]; cbn in H.
    + destruct H as [H | []]; discriminate.
    + destruct (ok status); cbn in H.
      * destruct H as [H | H]; [discriminate |].
        destruct (delete_error env (key req)); destruct H as [H | []]; discriminate.
      * destruct H as [H | []]; discriminate.
  - intros [<- <-]. now left.
Qed.

Lemma in_replay_events_delete (env : Env) (req : QueuedRequest) (k : N) :
  In (EvDelete k) (replay_events env req) <->
  key req = k /\ succeeded (net env (key req) (value req)) = true.
Proof.
  unfold replay_events, succeeded. split.
  - intros [H | H]; [discriminate |].
    destruct (net env (key req) (value req)) as [e | status]; cbn in H.
    + destruct H as [H | []]; discriminate.
    + destruct (ok status); cbn in H.
      * destruct H as [H | H]; [inversion H; auto |].
        destruct (delete_error env (key req)); destruct H as [H | []]; discriminate.
      * destruct H as [H | []]; discriminate.
  - intros [<- H]. right.
    destruct (net env (key req) (value req)) as [e | status]; [discriminate |].
    rewrite H. now left.
Qed.

Lemma in_cycle_events (env : Env) (w : World) (ev : Event) :
  open_error env = None -> cursor_error env = None ->
  (In ev (cycle_events env w) <->
   exists k v, In (k, v) (queue w) /\
               In ev (replay_events env {| value := v; key := k |})).
Proof.
  intros Ho Hc. rewrite cycle_resolved_events by assumption.
  rewrite in_concat. split.
  - intros [evs [Hevs Hin]]. apply in_map_iff in Hevs as [req [<- Hreq]].
    apply in_snapshot in Hreq. exists (key req), (value req). split; [assumption |].
    now destruct req.
  - intros [k [v [Hq Hin]]]. exists (replay_events env {| value := v; key := k |}).
    split; [| assumption]. apply in_map. now apply in_snapshot.
Qed.

Lemma removes_false_of_failure (env : Env) (k : N) (v : StoredValue) :
  succeeded (net env k v) = false -> removes env {| value := v; key := k |} = false.
Proof. unfold removes. cbn. now intros ->. Qed.

Lemma getAllFromStore_lists (store : IDBObjectStore) (env : Env) (w : World) :
  cursor_error env = None ->
  db w <> None ->
  getAllFromStore store env w = (Fulfilled (snapshot (queue w)), w).
Proof.
  intros Hc Hdb. unfold getAllFromStore, queue. rewrite Hc.
  destruct (db w); [| contradiction].
  unfold IDB.openCursor. now rewrite cursor_loop_snapshot.
Qed.

(** C1, as stated, fails: with one entry queued, the server answering 200
    and the store's delete request failing, the replay has returned a
    success status and the entry is still in the store after the cycle. *)
Lemma successful_replay_may_stay_queued :
  succeeded (net Examples.delete_fault 1 Examples.doc_upload) = true /\
  queue (snd (processUploadQueue Examples.delete_fault Examples.one_queued)) =
  [(1, Examples.doc_upload)] /\
  ~ deleted_iff_success.
Proof.
  split; [reflexivity |]. split; [reflexivity |].
  intros H.
  destruct (H Examples.delete_fault Examples.one_queued 1 Examples.doc_upload)
    as [_ Hgone].
  - reflexivity.
  - reflexivity.
  - reflexivity.
  - cbn. auto.
  - apply Hgone; [reflexivity |]. cbn. auto.
Qed.

(** C1, amended (delete after success only).  In a drain cycle whose
    enumeration goes through, for every entry of the snapshot: the cycle
    resolves; the delete request for the entry's key is issued if and only
    if its replay returned a success status (2xx); the key is gone from the
    store afterwards if and only if the replay returned a success status and
    that delete request went through; and in every other case - a transport
    failure, a non-success status, a failed delete request - the entry is
    still in the store with its value. *)
Theorem delete_iff_replay_succeeded
    (env : Env) (w : World) (k : N) (v : StoredValue) :
  wf_world w ->
  open_error env = None -> cursor_error env = None ->
  In (k, v) (queue w) ->
  let out := processUploadQueue env w in
  (exists r, fst out = Fulfilled r) /\
  (In (EvDelete k) (cycle_events env w) <-> succeeded (net env k v) = true) /\
  (~ has_key k (snd out) <->
   succeeded (net env k v) = true /\ delete_error env k = None) /\
  (succeeded (net env k v) = false \/ delete_error env k <> None ->
   In (k, v) (queue (snd out))).
Proof.
  intros Hwf Ho Hc Hin out. subst out.
  assert (Hrem : removes env {| value := v; key := k |} = true <->
                 succeeded (net env k v) = true /\ delete_error env k = None).
  { unfold removes. cbn [key value]. rewrite andb_true_iff.
    destruct (delete_error env k); intuition (discriminate || auto). }
  split; [| split; [split | split]].
  - eexists. now apply cycle_resolved_fst.
  - rewrite in_cycle_events by assumption.
    intros [k' [v' [Hq Hev]]]. apply in_replay_events_delete in Hev as [Hk Hs].
    cbn in Hk, Hs. subst k'.
    now rewrite (queue_functional w k v v' Hwf Hin Hq).
  - intros Hs. rewrite in_cycle_events by assumption. exists k, v.
    split; [assumption |]. apply in_replay_events_delete. auto.
  - rewrite (cycle_resolved_has_key env w Ho Hc k v Hwf Hin), <- Hrem.
    destruct (removes env {| value := v; key := k |}); intuition congruence.
  - intros Hnot. apply cycle_resolved_in; try assumption.
    destruct (removes env {| value := v; key := k |}) eqn:Hr; [| reflexivity].
    destruct Hrem as [Hrem _]. destruct (Hrem eq_refl) as [Hs Hd].
    destruct Hnot; congruence.
Qed.

Lemma delete_iff_replay_succeeded_witness :
  let out := processUploadQueue Examples.first_fails Examples.two_queued in
  (exists r, fst out = Fulfilled r) /\
  (In (EvDelete 2) (cycle_events Examples.first_fails Examples.two_queued) <->
   succeeded (net Examples.first_fails 2 Examples.face_scan) = true) /\
  (~ has_key 2 (snd out) <->
   succeeded (net Examples.first_fails 2 Examples.face_scan) = true /\
   delete_error Examples.first_fails 2 = None) /\
  (succeeded (net Examples.first_fails 2 Examples.face_scan) = false \/
   delete_error Examples.first_fails 2 <> None ->
   In (2, Examples.face_scan) (queue (snd out))).
Proof.
  apply (delete_iff_replay_succeeded
           Examples.first_fails Examples.two_queued 2 Examples.face_scan).
  - reflexivity.
  - reflexivity.
  - reflexivity.
  - cbn. auto.
Defined.

(** C2, as stated, fails in its two-entry case: with two entries queued,
    the first replay meeting a transport error, the second a 200, and the
    store's delete request failing, both entries are still queued after the
    cycle. *)
Lemma second_entry_may_stay_queued :
  queue (snd (processUploadQueue Examples.first_fails_delete_fault
                                 Examples.two_queued)) =
  [(1, Examples.doc_upload); (2, Examples.face_scan)] /\
  ~ second_of_two_is_removed.
Proof.
  split; [reflexivity |].
  intros H.
  specialize (H Examples.first_fails_delete_fault Examples.two_queued
                1 Examples.doc_upload 2 Examples.face_scan
                Examples.failed_to_fetch 200
                eq_refl eq_refl eq_refl eq_refl eq_refl eq_refl eq_refl).
  discriminate H.
Qed.

(** C2, amended (per-entry failure isolation).  Whatever the replays of a
    cycle meet, the cycle resolves, every entry of the snapshot is replayed,
    and whether an entry is still queued afterwards is decided by its own
    replay and its own delete request alone.  In particular, with two
    entries queued, the first meeting a transport error and the second a
    success status, the queue afterwards holds the first entry and nothing
    else, provided the second entry's delete request goes through. *)
Theorem replay_failures_are_isolated (env : Env) (w : World) :
  wf_world w ->
  open_error env = None -> cursor_error env = None ->
  let out := processUploadQueue env w in
  (exists r, fst out = Fulfilled r) /\
  (forall k v,
      In (k, v) (queue w) ->
      In (EvFetch k v) (cycle_events env w) /\
      (In (k, v) (queue (snd out)) <->
       removes env {| value := v; key := k |} = false)) /\
  (forall k1 v1 k2 v2 e status,
      queue w = [(k1, v1); (k2, v2)] ->
      net env k1 v1 = NetworkError e ->
      net env k2 v2 = Response status -> ok status = true ->
      delete_error env k2 = None ->
      queue (snd out) = [(k1, v1)]).
Proof.
  intros Hwf Ho Hc out. subst out. split; [| split].
  - eexists. now apply cycle_resolved_fst.
  - intros k v Hin. split.
    + rewrite in_cycle_events by assumption. exists k, v. split; [assumption |].
      apply in_replay_events_fetch. auto.
    + now apply cycle_resolved_in.
  - intros k1 v1 k2 v2 e status Hq Hn1 Hn2 Hok Hd.
    assert (H1 : In (k1, v1) (queue w)) by (rewrite Hq; cbn; auto).
    assert (H2 : In (k2, v2) (queue w)) by (rewrite Hq; cbn; auto).
    rewrite cycle_resolved_queue by assumption.
    pose proof (survives_own env w k1 v1 Hwf H1) as S1.
    pose proof (survives_own env w k2 v2 Hwf H2) as S2.
    rewrite Hq in *. cbn [filter]. rewrite S1, S2.
    unfold removes, succeeded. cbn [key value]. rewrite Hn1, Hn2, Hok, Hd.
    reflexivity.
Qed.

Lemma replay_failures_are_isolated_witness :
  (exists r, fst (processUploadQueue Examples.first_fails Examples.two_queued) =
             Fulfilled r) /\
  In (EvFetch 2 Examples.face_scan)
     (cycle_events Examples.first_fails Examples.two_queued) /\
  queue (snd (processUploadQueue Examples.first_fails Examples.two_queued)) =
  [(1, Examples.doc_upload)].
Proof.
  destruct (replay_failures_are_isolated
              Examples.first_fails Examples.two_queued eq_refl eq_refl eq_refl)
    as [Hres [Heach Htwo]].
  split; [exact Hres |]. split.
  - apply (Heach 2 Examples.face_scan). cbn. auto.
  - apply (Htwo 1 Examples.doc_upload 2 Examples.face_scan
                Examples.failed_to_fetch 200); reflexivity.
Defined.

Lemma cycles_keep (envs : list Env) (k : N) (v : StoredValue) :
  forall w,
    wf_world w -> In (k, v) (queue w) ->
    (forall env, In env envs -> succeeded (net env k v) = false) ->
    wf_world (cycles envs w) /\ In (k, v) (queue (cycles envs w)).
Proof.
  induction envs as [| env envs IH]; intros w Hwf Hin Hfail; cbn [cycles].
  - auto.
  - apply IH.
    + now apply wf_world_cycle.
    + apply cycle_keeps; try assumption.
      apply removes_false_of_failure, Hfail. now left.
    + intros env' Henv'. apply Hfail. now right.
Qed.

(** C3 (at-least-once, never-zero delivery).  An entry that is queued and
    whose replay does not succeed in any of a sequence of drain cycles
    (whatever else happens in them, store errors included) is still in the
    queue after them, and [list()] returns it. *)
Theorem unreplayed_entry_stays_queued
    (envs : list Env) (w : World) (k : N) (v : StoredValue) :
  wf_world w ->
  In (k, v) (queue w) ->
  (forall env, In env envs -> succeeded (net env k v) = false) ->
  let w' := cycles envs w in
  In (k, v) (queue w') /\
  forall store env,
    cursor_error env = None ->
    exists items,
      getAllFromStore store env w' = (Fulfilled items, w') /\
      In {| value := v; key := k |} items.
Proof.
  intros Hwf Hin Hfail w'. subst w'.
  destruct (cycles_keep envs k v w Hwf Hin Hfail) as [_ Hin'].
  split; [assumption |].
  intros store env Hc. exists (snapshot (queue (cycles envs w))).
  split; [| now apply in_snapshot].
  apply getAllFromStore_lists; [assumption |].
  unfold queue in Hin'. destruct (db (cycles envs w)); [discriminate | contradiction].
Qed.

Lemma unreplayed_entry_stays_queued_witness :
  let w' := cycles [Examples.offline; Examples.server_down; Examples.first_fails]
                   Examples.two_queued in
  In (1, Examples.doc_upload) (queue w') /\
  forall store env,
    cursor_error env = None ->
    exists items,
      getAllFromStore store env w' = (Fulfilled items, w') /\
      In {| value := Examples.doc_upload; key := 1 |} items.
Proof.
  apply (unreplayed_entry_stays_queued
           [Examples.offline; Examples.server_down; Examples.first_fails]
           Examples.two_queued 1 Examples.doc_upload).
  - reflexivity.
  - cbn. auto.
  - intros env [<- | [<- | [<- | []]]]; reflexivity.
Defined.

(** C4, as stated, fails: with one entry queued, the server answering 200
    and the store's delete request failing, the cycle resolves, so the
    deletion's error does not reach the caller. *)
Lemma store_errors_are_fatal_fails :
  processUploadQueue Examples.delete_fault Examples.one_queued =
  (Fulfilled [tt],
   {| db := db Examples.one_queued;
      trace := [EvFetch 1 Examples.doc_upload; EvDelete 1;
                EvError failed_msg Examples.unknown_error] |}) /\
  ~ store_errors_are_fatal.
Proof.
  split; [reflexivity |].
  intros H.
  destruct (H Examples.delete_fault Examples.one_queued) as [[e He] _].
  - reflexivity.
  - right. right. repeat split.
    exists {| value := Examples.doc_upload; key := 1 |}. repeat split.
    + cbn. auto.
    + discriminate.
  - discriminate He.
Qed.

(** C4, amended.  An error of the enumeration step is fatal to the cycle and
    reaches the caller: when the database cannot be opened the cycle rejects
    and the world is as it was; when the cursor request fails the cycle
    rejects with the request's error, nothing is replayed and the queue is as
    it was.  A failed deletion is not propagated: the cycle resolves and the
    entry stays queued. *)
Theorem enumeration_errors_are_fatal (env : Env) (w : World) :
  let out := processUploadQueue env w in
  (forall code,
      open_error env = Some code ->
      out = (Rejected (Str ("IndexedDB error: " ++ code)), w)) /\
  (forall e,
      open_error env = None -> cursor_error env = Some e ->
      fst out = Rejected e /\ queue (snd out) = queue w /\
      trace (snd out) = trace w) /\
  (forall k v e,
      wf_world w ->
      open_error env = None -> cursor_error env = None ->
      In (k, v) (queue w) ->
      succeeded (net env k v) = true -> delete_error env k = Some e ->
      (exists r, fst out = Fulfilled r) /\ In (k, v) (queue (snd out))).
Proof.
  intros out. subst out. split; [| split].
  - intros code Ho. now apply processUploadQueue_open_error.
  - intros e Ho Hc. rewrite (processUploadQueue_cursor_error env w e Ho Hc).
    cbn [fst snd trace]. repeat split. unfold queue at 1. cbn [db].
    apply queue_opened.
  - intros k v e Hwf Ho Hc Hin Hs Hd. split.
    + eexists. now apply cycle_resolved_fst.
    + apply cycle_resolved_in; try assumption.
      unfold removes. cbn. rewrite Hd. apply andb_false_r.
Qed.

(** C10 (a failed deletion is swallowed).  When an entry's replay succeeds
    and the delete request for its key fails, the error is caught and logged
    by the entry's handler: the cycle resolves, the entry is still queued,
    and the next cycle whose enumeration goes through replays it again. *)
Theorem failed_delete_is_swallowed
    (env : Env) (w : World) (k : N) (v : StoredValue) (e : JsError) :
  wf_world w ->
  open_error env = None -> cursor_error env = None ->
  In (k, v) (queue w) ->
  succeeded (net env k v) = true ->
  delete_error env k = Some e ->
  let out := processUploadQueue env w in
  (exists r, fst out = Fulfilled r) /\
  In (EvError failed_msg e) (cycle_events env w) /\
  In (k, v) (queue (snd out)) /\
  forall env',
    open_error env' = None -> cursor_error env' = None ->
    In (EvFetch k v) (cycle_events env' (snd out)).
Proof.
  intros Hwf Ho Hc Hin Hs Hd out. subst out.
  assert (Hkept : In (k, v) (queue (snd (processUploadQueue env w)))).
  { apply cycle_resolved_in; try assumption.
    unfold removes. cbn. rewrite Hd. apply andb_false_r. }
  split; [| split; [| split]].
  - eexists. now apply cycle_resolved_fst.
  - rewrite in_cycle_events by assumption. exists k, v. split; [assumption |].
    unfold replay_events. cbn [key value]. right.
    unfold succeeded in Hs. destruct (net env k v) as [e' | status]; [discriminate |].
    rewrite Hs, Hd. cbn. auto.
  - exact Hkept.
  - intros env' Ho' Hc'. rewrite in_cycle_events by assumption.
    exists k, v. split; [assumption |]. apply in_replay_events_fetch. auto.
Qed.

Lemma failed_delete_is_swallowed_witness :
  let out := processUploadQueue Examples.delete_fault Examples.one_queued in
  (exists r, fst out = Fulfilled r) /\
  In (EvError failed_msg Examples.unknown_error)
     (cycle_events Examples.delete_fault Examples.one_queued) /\
  In (1, Examples.doc_upload) (queue (snd out)) /\
  forall env',
    open_error env' = None -> cursor_error env' = None ->
    In (EvFetch 1 Examples.doc_upload) (cycle_events env' (snd out)).
Proof.
  apply (failed_delete_is_swallowed
           Examples.delete_fault Examples.one_queued 1 Examples.doc_upload
           Examples.unknown_error).
  - reflexivity.
  - reflexivity.
  - reflexivity.
  - cbn. auto.
  - reflexivity.
  - reflexivity.
Defined.

(** ** The trigger *)

(** C9 (other tags).  A [sync] event whose tag is not ['sync-uploads'] starts
    no drain cycle: nothing is handed to [waitUntil] and the world (the
    store and the trace of replays alike) is as it was. *)
Theorem other_sync_tags_do_nothing (tag : string) (env : Env) (w : World) :
  tag <> "sync-uploads" ->
  on_sync tag env w = (None, w).
Proof.
  intros Htag. unfold on_sync.
  destruct (String.eqb_spec tag "sync-uploads") as [Heq | _];
    [contradiction | reflexivity].
Qed.

Lemma other_sync_tags_do_nothing_witness :
  on_sync "sync-profile" Examples.online Examples.two_queued =
  (None, Examples.two_queued).
Proof.
  apply (other_sync_tags_do_nothing "sync-profile" Examples.online Examples.two_queued).
  discriminate.
Defined.

(** The tag ['sync-uploads'] does start the cycle. *)
Lemma sync_uploads_drains (env : Env) (w : World) :
  on_sync "sync-uploads" env w =
  (Some (fst (processUploadQueue env w)), snd (processUploadQueue env w)).
Proof. unfold on_sync. cbn. now destruct (processUploadQueue env w). Qed.

Lemma enumeration_errors_are_fatal_witness :
  processUploadQueue Examples.open_fault Examples.two_queued =
  (Rejected (Str "IndexedDB error: undefined"), Examples.two_queued) /\
  (fst (processUploadQueue Examples.cursor_fault Examples.two_queued) =
   Rejected Examples.unknown_error /\
   queue (snd (processUploadQueue Examples.cursor_fault Examples.two_queued)) =
   queue Examples.two_queued /\
   trace (snd (processUploadQueue Examples.cursor_fault Examples.two_queued)) =
   trace Examples.two_queued) /\
  ((exists r, fst (processUploadQueue Examples.delete_fault Examples.one_queued) =
              Fulfilled r) /\
   In (1, Examples.doc_upload)
      (queue (snd (processUploadQueue Examples.delete_fault Examples.one_queued)))).
Proof.
  split; [| split].
  - apply (enumeration_errors_are_fatal Examples.open_fault Examples.two_queued).
    reflexivity.
  - apply (enumeration_errors_are_fatal Examples.cursor_fault Examples.two_queued);
      reflexivity.
  - apply (enumeration_errors_are_fatal Examples.delete_fault Examples.one_queued)
      with (e := Examples.unknown_error); try reflexivity.
    cbn. auto.
Defined.

(** ** The store: deletion, enumeration, keys *)

(** C5, as stated, fails: a delete of key 7, which has no record, rejects
    when the storage fails the request. *)
Lemma delete_of_missing_key_may_error :
  ~ has_key 7 Examples.two_queued /\
  fst (deleteFromStore Examples.upload_queue 7 Examples.delete_fault
                       Examples.two_queued) =
  Rejected Examples.unknown_error /\
  ~ delete_of_missing_key_never_errors.
Proof.
  assert (Hno : ~ has_key 7 Examples.two_queued).
  { cbn. intros [H | [H | []]]; discriminate. }
  split; [exact Hno |]. split; [reflexivity |].
  intros H.
  destruct (H Examples.upload_queue Examples.delete_fault Examples.two_queued 7 Hno)
    as [Herr _].
  discriminate Herr.
Qed.

(** C5, amended (idempotent deletion).  A delete request rejects exactly
    when the storage fails it, with the storage's error, whatever the store
    holds: never because the key has no record.  On a key without a record
    it leaves the database as it was.  When a first deletion has gone
    through, the key has no record, and a second deletion of the same key
    under the same conditions goes through as well and leaves the database
    as the first left it. *)
Theorem delete_is_idempotent
    (store : IDBObjectStore) (env : Env) (w : World) (k : N) :
  let out1 := deleteFromStore store k env w in
  let out2 := deleteFromStore store k env (snd out1) in
  (fst out1 = Fulfilled tt <-> delete_error env k = None) /\
  (forall e, fst out1 = Rejected e <-> delete_error env k = Some e) /\
  (~ has_key k w -> db (snd out1) = db w) /\
  (fst out1 = Fulfilled tt ->
   ~ has_key k (snd out1) /\
   fst out2 = Fulfilled tt /\
   db (snd out2) = db (snd out1)).
Proof.
  intros out1 out2. subst out1 out2.
  unfold deleteFromStore.
  destruct (delete_error env k) as [e |] eqn:Hd; cbn [fst snd db trace].
  - split; [split; discriminate |]. split; [| split].
    + intros e'. split; congruence.
    + reflexivity.
    + discriminate.
  - split; [tauto |]. split; [| split].
    + intros e'. split; discriminate.
    + unfold has_key, queue. destruct (db w) as [s |]; cbn; [| reflexivity].
      intros Hk. f_equal. now apply IDBFacts.delete_absent.
    + intros _. split; [| split].
      * unfold has_key, queue. cbn [db]. destruct (db w) as [s |]; cbn; [| tauto].
        apply IDBFacts.delete_removes.
      * reflexivity.
      * destruct (db w) as [s |]; cbn; [| reflexivity].
        f_equal. apply IDBFacts.delete_delete.
Qed.

Lemma delete_is_idempotent_witness :
  let out1 := deleteFromStore Examples.upload_queue 2 Examples.online
                              Examples.two_queued in
  let out2 := deleteFromStore Examples.upload_queue 2 Examples.online (snd out1) in
  queue (snd out1) = [(1, Examples.doc_upload)] /\
  ~ has_key 2 (snd out1) /\
  fst out2 = Fulfilled tt /\
  db (snd out2) = db (snd out1).
Proof.
  split; [reflexivity |].
  apply (delete_is_idempotent
           Examples.upload_queue Examples.online Examples.two_queued 2).
  reflexivity.
Defined.

Lemma run_app (ops1 ops2 : list IDB.Op) (s : IDB.ObjectStore) :
  IDB.run (ops1 ++ ops2) s = IDB.run ops2 (IDB.run ops1 s).
Proof. unfold IDB.run. apply fold_left_app. Qed.

(** The sorted store and the spec's append-only log hold the same entries in
    the same order. *)
Lemma records_insertion_log (ops : list IDB.Op) :
  forall s,
    IDB.wf s ->
    IDB.records (IDB.run ops s) =
    IDB.insertion_log ops (IDB.records s) (IDB.keygen s).
Proof.
  induction ops as [| [v | k] ops IH]; intros s Hwf; cbn [IDB.run fold_left IDB.insertion_log].
  - reflexivity.
  - fold (IDB.run ops (IDB.apply (IDB.Put v) s)).
    rewrite IH by now apply IDBFacts.wf_apply.
    cbn [IDB.apply]. rewrite IDBFacts.put_appends by assumption. reflexivity.
  - fold (IDB.run ops (IDB.apply (IDB.Delete k) s)).
    rewrite IH by now apply IDBFacts.wf_apply. reflexivity.
Qed.

(** C6 (insertion-order enumeration).  [list()] resolves with every record
    of the store, each with its key, and leaves the world as it was; on a
    store without records it resolves with the empty sequence; the records
    it walks are, after any sequence of puts and deletes, the entries of the
    append-only insertion log in the log's order; and after [put(r1)],
    [put(r2)], [put(r3)] it returns what it returned before followed by
    [r1], [r2], [r3] in that order. *)
Theorem list_is_insertion_order
    (store : IDBObjectStore) (env : Env) (t : list Event) (s : IDB.ObjectStore) :
  cursor_error env = None ->
  IDB.wf s ->
  let world := fun s' => {| db := Some s'; trace := t |} in
  getAllFromStore store env (world s) =
  (Fulfilled (snapshot (IDB.records s)), world s) /\
  (IDB.records s = [] ->
   getAllFromStore store env (world s) = (Fulfilled [], world s)) /\
  (forall ops,
      getAllFromStore store env (world (IDB.run ops s)) =
      (Fulfilled (snapshot (IDB.insertion_log ops (IDB.records s) (IDB.keygen s))),
       world (IDB.run ops s))) /\
  (forall r1 r2 r3,
      let s3 := IDB.run [IDB.Put r1; IDB.Put r2; IDB.Put r3] s in
      exists items,
        getAllFromStore store env (world s3) = (Fulfilled items, world s3) /\
        map value items = map snd (IDB.records s) ++ [r1; r2; r3] /\
        map key items =
        IDB.keys s ++ [IDB.keygen s; IDB.keygen s + 1; IDB.keygen s + 1 + 1]).
Proof.
  intros Hc Hwf world.
  assert (Hlist : forall s', getAllFromStore store env (world s') =
                             (Fulfilled (snapshot (IDB.records s')), world s')).
  { intros s'. unfold getAllFromStore. rewrite Hc. cbn [db world].
    unfold IDB.openCursor. now rewrite cursor_loop_snapshot. }
  split; [apply Hlist |]. split; [| split].
  - intros Hnil. now rewrite Hlist, Hnil.
  - intros ops. now rewrite Hlist, records_insertion_log.
  - intros r1 r2 r3 s3. subst s3. eexists. split; [apply Hlist |].
    rewrite records_insertion_log by assumption.
    cbn [IDB.insertion_log]. unfold snapshot, IDB.keys.
    rewrite !map_map. cbn [value key]. rewrite <- !app_assoc, !map_app. cbn.
    split; reflexivity.
Qed.

Lemma list_is_insertion_order_witness :
  let world := fun s' => {| db := Some s'; trace := [] |} in
  getAllFromStore Examples.upload_queue Examples.online (world IDB.createObjectStore) =
  (Fulfilled [], world IDB.createObjectStore) /\
  (IDB.records IDB.createObjectStore = [] ->
   getAllFromStore Examples.upload_queue Examples.online
                   (world IDB.createObjectStore) =
   (Fulfilled [], world IDB.createObjectStore)) /\
  (forall ops,
      getAllFromStore Examples.upload_queue Examples.online
                      (world (IDB.run ops IDB.createObjectStore)) =
      (Fulfilled (snapshot (IDB.insertion_log ops [] 1)),
       world (IDB.run ops IDB.createObjectStore))) /\
  (forall r1 r2 r3,
      let s3 := IDB.run [IDB.Put r1; IDB.Put r2; IDB.Put r3] IDB.createObjectStore in
      exists items,
        getAllFromStore Examples.upload_queue Examples.online (world s3) =
        (Fulfilled items, world s3) /\
        map value items = [r1; r2; r3] /\
        map key items = [1; 2; 3]).
Proof.
  apply (list_is_insertion_order
           Examples.upload_queue Examples.online [] IDB.createObjectStore);
    reflexivity.
Defined.

Lemma keygen_run (ops : list IDB.Op) :
  forall s, IDB.keygen s <= IDB.keygen (IDB.run ops s).
Proof.
  induction ops as [| [v | k] ops IH]; intros s; cbn [IDB.run fold_left].
  - lia.
  - fold (IDB.run ops (IDB.apply (IDB.Put v) s)). cbn [IDB.apply].
    specialize (IH (snd (IDB.put v s))). cbn [IDB.put snd IDB.keygen] in IH.
    cbn [IDB.put snd]. eapply N.le_trans; [| exact IH]. apply N.le_add_r.
  - fold (IDB.run ops (IDB.apply (IDB.Delete k) s)). cbn [IDB.apply].
    specialize (IH (IDB.delete k s)). cbn [IDB.delete IDB.keygen] in IH.
    exact IH.
Qed.

(** The keys handed out lie between the generator's number before and its
    number after, and go up strictly. *)
Lemma assigned_increasing (ops : list IDB.Op) :
  forall s,
    StronglySorted N.lt (IDB.assigned ops s) /\
    Forall (fun k => IDB.keygen s <= k < IDB.keygen (IDB.run ops s))
           (IDB.assigned ops s).
Proof.
  induction ops as [| [v | k] ops IH]; intros s; cbn [IDB.assigned].
  - split; constructor.
  - destruct (IH (snd (IDB.put v s))) as [Hs Hb].
    change (IDB.run (IDB.Put v :: ops) s) with (IDB.run ops (snd (IDB.put v s))).
    pose proof (keygen_run ops (snd (IDB.put v s))) as Hg.
    cbn [IDB.put fst snd IDB.keygen] in *.
    split.
    + constructor; [exact Hs |].
      eapply Forall_impl; [| exact Hb]. cbn. intros; lia.
    + constructor; [lia |].
      eapply Forall_impl; [| exact Hb]. cbn. intros; lia.
  - destruct (IH (IDB.delete k s)) as [Hs Hb].
    change (IDB.run (IDB.Delete k :: ops) s) with (IDB.run ops (IDB.delete k s)).
    cbn [IDB.delete IDB.keygen] in *. split; assumption.
Qed.

Lemma StronglySorted_lt_NoDup (l : list N) : StronglySorted N.lt l -> NoDup l.
Proof.
  induction 1 as [| k l Hs IH Hall]; constructor; [| assumption].
  intros Hin. rewrite Forall_forall in Hall. apply Hall in Hin. lia.
Qed.

(** C7 (key monotonicity and uniqueness).  Over any sequence of puts and
    deletes on a store, the keys the puts hand out go up strictly, so that
    none is handed out twice, also not after its record was deleted; each is
    at or above the generator's number at the start and is the key of no
    record the store held then; and the next put hands out a key above all of
    them that no record of the store has, and stores its value under it. *)
Theorem put_keys_strictly_increase (ops : list IDB.Op) (s : IDB.ObjectStore) :
  IDB.wf s ->
  StronglySorted N.lt (IDB.assigned ops s) /\
  NoDup (IDB.assigned ops s) /\
  Forall (fun k => IDB.keygen s <= k /\ ~ In k (IDB.keys s)) (IDB.assigned ops s) /\
  forall v,
    let k := fst (IDB.put v (IDB.run ops s)) in
    Forall (fun k' => k' < k) (IDB.assigned ops s) /\
    Forall (fun k' => k' < k) (IDB.keys (IDB.run ops s)) /\
    In (k, v) (IDB.records (snd (IDB.put v (IDB.run ops s)))).
Proof.
  intros Hwf. destruct (assigned_increasing ops s) as [Hs Hb].
  split; [exact Hs |]. split; [now apply StronglySorted_lt_NoDup |]. split.
  - pose proof (IDBFacts.wf_below s Hwf) as Hbelow. rewrite Forall_forall in Hbelow.
    eapply Forall_impl; [| exact Hb]. cbn. intros k [Hk _]. split; [exact Hk |].
    intros Hin. apply Hbelow in Hin. lia.
  - intros v k. subst k. cbn [IDB.put fst]. split; [| split].
    + eapply Forall_impl; [| exact Hb]. cbn. intros; lia.
    + apply IDBFacts.wf_below. now apply IDBFacts.wf_run.
    + rewrite IDBFacts.put_appends by now apply IDBFacts.wf_run.
      apply in_or_app. right. now left.
Qed.

Lemma put_keys_strictly_increase_witness :
  IDB.assigned [IDB.Put Examples.doc_upload; IDB.Delete 1; IDB.Put Examples.face_scan]
               IDB.createObjectStore = [1; 2] /\
  StronglySorted N.lt
    (IDB.assigned [IDB.Put Examples.doc_upload; IDB.Delete 1; IDB.Put Examples.face_scan]
                  IDB.createObjectStore).
Proof.
  split; [reflexivity |].
  apply (put_keys_strictly_increase
           [IDB.Put Examples.doc_upload; IDB.Delete 1; IDB.Put Examples.face_scan]
           IDB.createObjectStore).
  reflexivity.
Defined.

(** ** Two drain cycles side by side *)

Module InterleaveFacts.
Import Interleave.

Lemma length_remove_nth {A} (l : list A) :
  forall i x, nth_error l i = Some x ->
              S (List.length (remove_nth i l)) = List.length l.
Proof.
  unfold remove_nth.
  induction l as [| a l IH]; intros [| i] x H; cbn in *; try discriminate.
  - reflexivity.
  - f_equal. eapply IH. exact H.
Qed.

Lemma Forall_remove_nth {A} (P : A -> Prop) (i : nat) (l : list A) :
  Forall P l -> Forall P (remove_nth i l).
Proof.
  intros H. unfold remove_nth. apply Forall_app.
  rewrite <- (firstn_skipn i l) in H. apply Forall_app in H as [H1 H2].
  split; [exact H1 |].
  change (S i) with (1 + i)%nat. rewrite <- skipn_skipn.
  destruct (skipn i l) as [| x rest]; cbn; [constructor |].
  now inversion H2.
Qed.

Lemma length_cursor_loop (q : list (N * StoredValue)) :
  List.length (cursor_loop q []) = List.length q.
Proof. rewrite cursor_loop_snapshot. unfold snapshot. apply length_map. Qed.

Lemma length_delete (k : N) (d : option IDB.ObjectStore) :
  (List.length (records_of (option_map (IDB.delete k) d)) <=
   List.length (records_of d))%nat.
Proof. destruct d as [s |]; cbn; [apply filter_length_le | lia]. Qed.

(** Progress: a cycle whose promise has not settled has a task to run. *)
Lemma cstep_progress (env : Env) (d : option IDB.ObjectStore) (c : Cycle) :
  settled c = false -> cstep env 0 d c <> None.
Proof.
  destruct c as [| | fetching deleting | e]; cbn; intros H.
  - destruct (open_error env); discriminate.
  - destruct (cursor_error env); discriminate.
  - destruct fetching as [| req fetching]; cbn.
    + destruct deleting as [| req deleting]; [discriminate |]. cbn.
      destruct (delete_error env (key req)); discriminate.
    + destruct (succeeded (net env (key req) (value req))); discriminate.
  - discriminate.
Qed.

(** Every task uses up one of the cycle's tasks and leaves the store with no
    more records than before. *)
Lemma cstep_tasks (env : Env) (i : nat) (d d' : option IDB.ObjectStore)
    (c c' : Cycle) (l : Label) :
  cstep env i d c = Some (l, d', c') ->
  (tasks d' c' < tasks d c)%nat /\
  (List.length (records_of d') <= List.length (records_of d))%nat.
Proof.
  destruct c as [| | fetching deleting | e]; cbn [cstep]; intros H.
  - destruct (open_error env); inversion H; subst; cbn [tasks]; [lia |].
    destruct d; cbn; lia.
  - destruct (cursor_error env); inversion H; subst; cbn [tasks]; [lia |].
    rewrite length_cursor_loop. cbn. lia.
  - destruct (nth_error fetching i) as [req |] eqn:Hf.
    + apply length_remove_nth in Hf.
      destruct (succeeded (net env (key req) (value req)));
        inversion H; subst; cbn [tasks]; rewrite ?length_app; cbn; lia.
    + destruct (nth_error deleting (i - List.length fetching)) as [req |] eqn:Hd;
        [| discriminate].
      apply length_remove_nth in Hd.
      destruct (delete_error env (key req)); inversion H; subst; cbn [tasks].
      * lia.
      * split; [lia | apply length_delete].
  - discriminate.
Qed.

Lemma tasks_mono (d d' : option IDB.ObjectStore) (c : Cycle) :
  (List.length (records_of d') <= List.length (records_of d))%nat ->
  (tasks d' c <= tasks d c)%nat.
Proof. destruct c; cbn; lia. Qed.

Lemma step_measure (envL envR : Env) (choice : Side * nat) (c c' : Config) (l : Label) :
  step envL envR choice c = Some (l, c') -> (measure c' < measure c)%nat.
Proof.
  destruct choice as [[|] i]; cbn [step]; intros H.
  - destruct (cstep envL i (store c) (left c)) as [[[l0 d] cl] |] eqn:Hs;
      inversion H; subst. unfold measure. cbn [store left right].
    apply cstep_tasks in Hs as [Ht Hl].
    pose proof (tasks_mono _ _ (right c) Hl). lia.
  - destruct (cstep envR i (store c) (right c)) as [[[l0 d] cr] |] eqn:Hs;
      inversion H; subst. unfold measure. cbn [store left right].
    apply cstep_tasks in Hs as [Ht Hl].
    pose proof (tasks_mono _ _ (left c) Hl). lia.
Qed.

(** Termination: a schedule that runs is no longer than the measure of the
    configuration it starts from. *)
Lemma run_bounded (envL envR : Env) (schedule : list (Side * nat)) :
  forall c ls c',
    run envL envR schedule c = Some (ls, c') ->
    (List.length schedule + measure c' <= measure c)%nat /\
    List.length ls = List.length schedule.
Proof.
  induction schedule as [| choice rest IH]; intros c ls c' H; cbn [run] in H.
  - inversion H; subst. cbn. lia.
  - destruct (step envL envR choice c) as [[l c1] |] eqn:Hs; [| discriminate].
    destruct (run envL envR rest c1) as [[ls1 c2] |] eqn:Hr; [| discriminate].
    inversion H; subst.
    apply step_measure in Hs. apply IH in Hr as [Hm Hlen]. cbn. lia.
Qed.

Section OneEntry.
Variables (k : N) (v : StoredValue) (g : N).
Let req : QueuedRequest := {| value := v; key := k |}.
Let full : option IDB.ObjectStore :=
  Some {| IDB.records := [(k, v)]; IDB.keygen := g |}.
Let empty : option IDB.ObjectStore :=
  Some {| IDB.records := []; IDB.keygen := g |}.

(** One task of a cycle over the one-entry queue, the other cycle's
    collaborators being [other]. *)
Lemma cstep_one_entry (env other : Env) (i : nat) (d d' : option IDB.ObjectStore)
    (c c' : Cycle) (l : Label) :
  replays env k v ->
  only req c ->
  d = full \/ d = empty ->
  cstep env i d c = Some (l, d', c') ->
  explained env other k l /\ only req c' /\
  (d = full ->
   (d' = full /\ is_removal k l = false /\
    (settled c' = true -> delete_error env k <> None)) \/
   (d' = empty /\ is_removal k l = true)) /\
  (d = empty -> d' = empty /\ is_removal k l = false).
Proof.
  intros [Ho [Hc Hs]] Honly Hstore.
  destruct c as [| | fetching deleting | e]; cbn [cstep]; intros H.
  - rewrite Ho in H. inversion H; subst l d' c'.
    split; [exact I |]. split; [exact I |].
    split; intros ->; [left |]; cbn; auto. repeat split. discriminate.
  - rewrite Hc in H. inversion H; subst l d' c'.
    rewrite cursor_loop_snapshot.
    split; [exact I |]. split.
    { destruct Hstore as [-> | ->]; cbn; repeat constructor. }
    split; intros ->; [left |]; cbn; auto. repeat split. discriminate.
  - destruct Honly as [Hf Hdl].
    destruct (nth_error fetching i) as [r |] eqn:Hnth.
    + assert (r = req) as ->.
      { apply nth_error_In in Hnth. rewrite Forall_forall in Hf.
        symmetry. now apply Hf. }
      cbn [key value req] in H. rewrite Hs in H. inversion H; subst l d' c'.
      split; [exact I |]. split.
      * split; [now apply Forall_remove_nth |].
        apply Forall_app. split; [assumption |]. now constructor.
      * split; intros ->; [left |]; repeat split.
        destruct (remove_nth i fetching); destruct deleting; discriminate.
    + destruct (nth_error deleting (i - List.length fetching)) as [r |] eqn:Hnth';
        [| discriminate].
      assert (r = req) as ->.
      { apply nth_error_In in Hnth'. rewrite Forall_forall in Hdl.
        symmetry. now apply Hdl. }
      cbn [key value req] in H.
      destruct (delete_error env k) as [e |] eqn:Hd; inversion H; subst l d' c'.
      * split; [cbn; auto |]. split.
        { split; [assumption | now apply Forall_remove_nth]. }
        split; intros ->; [left |]; repeat split; discriminate.
      * split; [exact I |]. split.
        { split; [assumption | now apply Forall_remove_nth]. }
        unfold has_record, records_of, IDB.delete.
        split; intros ->; [right |]; subst full empty;
          cbn [option_map IDB.records IDB.keygen filter existsb fst is_removal];
          rewrite ?N.eqb_refl; cbn [negb orb]; rewrite ?N.eqb_refl; auto.
  - discriminate.
Qed.

Lemma removals_snoc (ls : list Label) (l : Label) :
  removals k (ls ++ [l]) =
  (removals k ls + (if is_removal k l then 1 else 0))%nat.
Proof.
  unfold removals. rewrite filter_app, length_app. cbn.
  now destruct (is_removal k l).
Qed.

Lemma explained_sym (envL envR : Env) (l : Label) :
  explained envL envR k l -> explained envR envL k l.
Proof. destruct l; cbn; tauto. Qed.

Lemma one_entry_inv_sym (envL envR : Env) (ls : list Label)
    (d : option IDB.ObjectStore) (cl cr : Cycle) :
  one_entry_inv envL envR k v g ls {| store := d; left := cl; right := cr |} ->
  one_entry_inv envR envL k v g ls {| store := d; left := cr; right := cl |}.
Proof.
  unfold one_entry_inv. cbn. intros [Hl [Hr [He Hcases]]].
  repeat split; try assumption.
  - eapply Forall_impl; [| exact He]. intros l. apply explained_sym.
  - tauto.
Qed.

(** A task of the left cycle keeps the invariant. *)
Lemma cstep_keeps_inv (envL envR : Env) (i : nat) (ls : list Label)
    (d d' : option IDB.ObjectStore) (cl cl' cr : Cycle) (l : Label) :
  replays envL k v ->
  one_entry_inv envL envR k v g ls {| store := d; left := cl; right := cr |} ->
  cstep envL i d cl = Some (l, d', cl') ->
  one_entry_inv envL envR k v g (ls ++ [l])
                {| store := d'; left := cl'; right := cr |}.
Proof.
  intros Henv [Hl [Hr [He Hcases]]] Hstep. cbn [store left right] in *.
  assert (Hstore : d = full \/ d = empty)
    by (destruct Hcases as [[-> _] | [-> _]]; auto).
  destruct (cstep_one_entry envL envR i d d' cl cl' l Henv Hl Hstore Hstep)
    as [Hexp [Hl' [Hfull Hempty]]].
  unfold one_entry_inv. cbn [store left right].
  rewrite removals_snoc.
  split; [exact Hl' |]. split; [exact Hr |]. split.
  { apply Forall_app. split; [exact He | now constructor]. }
  destruct Hcases as [[-> [Hrem [_ Hsr]]] | [-> Hrem]].
  - destruct (Hfull eq_refl) as [[-> [-> Hsl']] | [-> ->]].
    + left. repeat split; auto. lia.
    + right. split; [reflexivity | lia].
  - destruct (Hempty eq_refl) as [-> ->]. right. split; [reflexivity | lia].
Qed.

Lemma step_keeps_inv (envL envR : Env) (choice : Side * nat)
    (ls : list Label) (c c' : Config) (l : Label) :
  replays envL k v -> replays envR k v ->
  one_entry_inv envL envR k v g ls c ->
  step envL envR choice c = Some (l, c') ->
  one_entry_inv envL envR k v g (ls ++ [l]) c'.
Proof.
  intros HL HR Hinv. destruct c as [d cl cr].
  destruct choice as [[|] i]; cbn [step store left right]; intros H.
  - destruct (cstep envL i d cl) as [[[l0 d'] cl'] |] eqn:Hs; inversion H; subst.
    exact (cstep_keeps_inv envL envR i ls d d' cl cl' cr l HL Hinv Hs).
  - destruct (cstep envR i d cr) as [[[l0 d'] cr'] |] eqn:Hs; inversion H; subst.
    apply one_entry_inv_sym.
    exact (cstep_keeps_inv envR envL i ls d d' cr cr' cl l HR
             (one_entry_inv_sym envL envR ls d cl cr Hinv) Hs).
Qed.

Lemma run_keeps_inv (envL envR : Env) (schedule : list (Side * nat)) :
  replays envL k v -> replays envR k v ->
  forall ls0 c ls c',
    one_entry_inv envL envR k v g ls0 c ->
    run envL envR schedule c = Some (ls, c') ->
    one_entry_inv envL envR k v g (ls0 ++ ls) c'.
Proof.
  intros HL HR.
  induction schedule as [| choice rest IH]; intros ls0 c ls c' Hinv H;
    cbn [run] in H.
  - inversion H; subst. now rewrite app_nil_r.
  - destruct (step envL envR choice c) as [[l c1] |] eqn:Hs; [| discriminate].
    destruct (run envL envR rest c1) as [[ls1 c2] |] eqn:Hr; [| discriminate].
    inversion H; subst.
    change (l :: ls1) with ([l] ++ ls1). rewrite app_assoc.
    apply (IH (ls0 ++ [l]) c1 ls1 c'); [| exact Hr].
    exact (step_keeps_inv envL envR choice ls0 c c1 l HL HR Hinv Hs).
Qed.

Lemma one_entry_inv_init (envL envR : Env) :
  one_entry_inv envL envR k v g [] (one_entry k v g).
Proof.
  unfold one_entry_inv, one_entry. cbn.
  repeat split; auto. left. repeat split; discriminate.
Qed.

Lemma only_settled (c : Cycle) :
  only req c -> settled c = true -> c = Replaying [] [].
Proof.
  destruct c as [| | [| r f] [| r' dl] | e]; cbn; intros H1 H2;
    try discriminate; try contradiction; reflexivity.
Qed.

Lemma explained_no_errors (envL envR : Env) (ls : list Label) :
  delete_error envL k = None -> delete_error envR k = None ->
  Forall (explained envL envR k) ls -> no_errors ls = true.
Proof.
  intros HL HR H. unfold no_errors. apply forallb_forall. intros l Hl.
  rewrite Forall_forall in H. specialize (H l Hl).
  destruct l; cbn in *; try reflexivity.
  - destruct H as [_ [H | H]]; congruence.
  - contradiction.
Qed.
End OneEntry.

(** C8, as stated, fails: two cycles over a queue of one entry whose replay
    is answered 200, with the store's delete requests failing, both settle
    with the record still in the store and nothing removed. *)
Lemma entry_may_survive_both_cycles :
  run Examples.delete_fault Examples.delete_fault
      [(L, 0); (R, 0); (L, 0); (R, 0); (R, 0); (L, 0); (R, 0); (L, 0)]%nat
      (one_entry 1 Examples.doc_upload 2) =
  Some ([LOpen; LOpen; LList; LList; LFetch 1 true; LFetch 1 true;
         LDeleteError 1 Examples.unknown_error;
         LDeleteError 1 Examples.unknown_error],
        {| store := Some {| IDB.records := [(1, Examples.doc_upload)];
                            IDB.keygen := 2 |};
           left := Replaying [] []; right := Replaying [] [] |}) /\
  ~ removed_once_without_error.
Proof.
  split; [reflexivity |].
  intros H.
  destruct (H Examples.delete_fault Examples.delete_fault 1 Examples.doc_upload 2
              [(L, 0); (R, 0); (L, 0); (R, 0); (R, 0); (L, 0); (R, 0); (L, 0)]%nat
              _ _ (conj eq_refl (conj eq_refl eq_refl))
              (conj eq_refl (conj eq_refl eq_refl)) eq_refl eq_refl)
    as [Hstore _].
  discriminate Hstore.
Qed.

(** C8, amended (two drain cycles side by side).  Two cycles are started
    over a queue that holds one entry; both can enumerate the store and the
    entry's replay is answered with a success status.  Whatever the order in
    which their tasks run and whatever the delete requests meet: the run is
    at most eight tasks long and an unsettled cycle can always run a task;
    the only task that can end in an error is a delete request that the
    storage fails - a delete request for the key that comes after the record
    is gone goes through and finds nothing; the record is removed at most
    once; once both cycles have settled, both have resolved, and either the
    store holds no record and the record was removed by exactly one delete
    request, or the record is still there and the delete requests of both
    cycles failed.  When no delete request fails, no task ends in an
    error. *)
Theorem concurrent_drains_remove_once
    (envL envR : Env) (k : N) (v : StoredValue) (g : N)
    (schedule : list (Side * nat)) (ls : list Label) (c : Config) :
  replays envL k v -> replays envR k v ->
  run envL envR schedule (one_entry k v g) = Some (ls, c) ->
  (List.length schedule <= 8)%nat /\
  (all_settled c = false ->
   exists side, step envL envR (side, 0%nat) c <> None) /\
  Forall (explained envL envR k) ls /\
  (removals k ls <= 1)%nat /\
  (all_settled c = true ->
   left c = Replaying [] [] /\ right c = Replaying [] [] /\
   ((store c = Some {| IDB.records := []; IDB.keygen := g |} /\
     removals k ls = 1%nat) \/
    (store c = Some {| IDB.records := [(k, v)]; IDB.keygen := g |} /\
     removals k ls = 0%nat /\
     delete_error envL k <> None /\ delete_error envR k <> None))) /\
  (delete_error envL k = None -> delete_error envR k = None ->
   no_errors ls = true).
Proof.
  intros HL HR Hrun.
  pose proof (run_keeps_inv k v g envL envR schedule HL HR [] _ _ _
                (one_entry_inv_init k v g envL envR) Hrun) as Hinv.
  cbn [app] in Hinv. destruct Hinv as [Hl [Hr [Hexp Hcases]]].
  split; [| split; [| split; [exact Hexp | split; [| split]]]].
  - apply run_bounded in Hrun as [Hm _]. unfold measure, one_entry in Hm.
    cbn in Hm. lia.
  - unfold all_settled. intros Hs. apply andb_false_iff in Hs as [Hs | Hs].
    + exists L. cbn [step].
      pose proof (cstep_progress envL (store c) (left c) Hs) as Hp.
      destruct (cstep envL 0 (store c) (left c)) as [[[l0 d] cl] |];
        [discriminate | contradiction].
    + exists R. cbn [step].
      pose proof (cstep_progress envR (store c) (right c) Hs) as Hp.
      destruct (cstep envR 0 (store c) (right c)) as [[[l0 d] cr] |];
        [discriminate | contradiction].
  - destruct Hcases as [[_ [-> _]] | [_ ->]]; lia.
  - unfold all_settled. intros Hs. apply andb_true_iff in Hs as [Hsl Hsr].
    split; [eauto using only_settled |]. split; [eauto using only_settled |].
    destruct Hcases as [[Hstore [Hrem [HdL HdR]]] | [Hstore Hrem]]; auto 6.
  - intros HdL HdR. exact (explained_no_errors k envL envR ls HdL HdR Hexp).
Qed.

Lemma concurrent_drains_remove_once_witness :
  run Examples.online Examples.online
      [(L, 0); (R, 0); (L, 0); (R, 0); (R, 0); (L, 0); (R, 0); (L, 0)]%nat
      (one_entry 1 Examples.doc_upload 2) =
  Some ([LOpen; LOpen; LList; LList; LFetch 1 true; LFetch 1 true;
         LDelete 1 true; LDelete 1 false],
        {| store := Some {| IDB.records := []; IDB.keygen := 2 |};
           left := Replaying [] []; right := Replaying [] [] |}) /\
  (removals 1 [LOpen; LOpen; LList; LList; LFetch 1 true; LFetch 1 true;
               LDelete 1 true; LDelete 1 false] <= 1)%nat /\
  no_errors [LOpen; LOpen; LList; LList; LFetch 1 true; LFetch 1 true;
             LDelete 1 true; LDelete 1 false] = true.
Proof.
  split; [reflexivity |].
  destruct (concurrent_drains_remove_once
              Examples.online Examples.online 1 Examples.doc_upload 2
              [(L, 0); (R, 0); (L, 0); (R, 0); (R, 0); (L, 0); (R, 0); (L, 0)]%nat
              [LOpen; LOpen; LList; LList; LFetch 1 true; LFetch 1 true;
               LDelete 1 true; LDelete 1 false]
              {| store := Some {| IDB.records := []; IDB.keygen := 2 |};
                 left := Replaying [] []; right := Replaying [] [] |}
              (conj eq_refl (conj eq_refl eq_refl))
              (conj eq_refl (conj eq_refl eq_refl)) eq_refl)
    as [_ [_ [_ [Hrem [_ Hne]]]]].
  split; [exact Hrem | exact (Hne eq_refl eq_refl)].
Defined.

End InterleaveFacts.

(** ** The order of completion does not matter

    [processUploadQueue] above runs the callbacks of [Promise.all] one after
    the other.  The cycle cut into tasks ([Interleave.crun]) lets the
    replays complete in any order; it settles the same way and leaves the
    same store. *)

Module Adequacy.
Import Interleave.

Lemma delete_comm (k k' : N) (s : IDB.ObjectStore) :
  IDB.delete k (IDB.delete k' s) = IDB.delete k' (IDB.delete k s).
Proof.
  unfold IDB.delete. cbn. f_equal. rewrite !filter_filter.
  apply filter_ext. intros kv. apply andb_comm.
Qed.

Lemma delete_all_perm (ks ks' : list N) :
  Permutation ks ks' -> forall d, delete_all ks d = delete_all ks' d.
Proof.
  induction 1 as [| k ks ks' _ IH | k k' ks | ks ks' ks'' _ IH1 _ IH2];
    intros d; cbn.
  - reflexivity.
  - apply IH.
  - f_equal. destruct d as [s |]; cbn; [| reflexivity]. f_equal. apply delete_comm.
  - now rewrite IH1.
Qed.

Lemma remove_nth_perm {A} (l : list A) :
  forall i x, nth_error l i = Some x -> Permutation l (x :: remove_nth i l).
Proof.
  unfold remove_nth.
  induction l as [| a l IH]; intros [| i] x H; cbn in *; try discriminate.
  - inversion H; subst. reflexivity.
  - apply IH in H. rewrite perm_swap. now constructor.
Qed.

Lemma filter_perm {A} (f : A -> bool) (l l' : list A) :
  Permutation l l' -> Permutation (filter f l) (filter f l').
Proof.
  induction 1 as [| x l l' _ IH | x y l | l l' l'' _ IH1 _ IH2]; cbn.
  - constructor.
  - destruct (f x); [now constructor | assumption].
  - destruct (f x), (f y); try reflexivity. apply perm_swap.
  - now transitivity (filter f l').
Qed.

Lemma drain_db_delete_all (env : Env) (reqs : list QueuedRequest) :
  forall d, drain_db env reqs d = delete_all (pending_keys env reqs []) d.
Proof.
  unfold pending_keys. cbn [filter]. setoid_rewrite app_nil_r.
  induction reqs as [| req reqs IH]; intros d; cbn; [reflexivity |].
  unfold replay_db at 2. destruct (removes env req); cbn; apply IH.
Qed.

Lemma filter_remove_nth {A} (f : A -> bool) (l : list A) (i : nat) (x : A) :
  nth_error l i = Some x ->
  Permutation (filter f l) ((if f x then [x] else []) ++ filter f (remove_nth i l)).
Proof.
  intros H. apply remove_nth_perm in H. apply (filter_perm f) in H.
  cbn [filter] in H. destruct (f x); exact H.
Qed.

(** A task changes neither the store the cycle is heading for nor the way
    its promise will settle. *)
Lemma cstep_target (env : Env) (i : nat) (d d' : option IDB.ObjectStore)
    (c c' : Cycle) (l : Label) :
  cstep env i d c = Some (l, d', c') ->
  target env d' c' = target env d c /\ rejection env c' = rejection env c.
Proof.
  destruct c as [| | fetching deleting | e]; cbn [cstep]; intros H.
  - destruct (open_error env) as [code |] eqn:Ho; inversion H; subst;
      cbn [target rejection]; rewrite ?Ho; [auto |].
    destruct (cursor_error env); destruct d; auto.
  - destruct (cursor_error env) as [e |] eqn:Hc; inversion H; subst;
      cbn [target rejection]; rewrite ?Hc; [auto |].
    now rewrite cursor_loop_snapshot.
  - destruct (nth_error fetching i) as [req |] eqn:Hf.
    + pose proof (filter_remove_nth (removes env) _ _ _ Hf) as Hp.
      unfold removes in Hp at 2. fold (deletable env req) in Hp.
      destruct (succeeded (net env (key req) (value req))) eqn:Hs;
        inversion H; subst; cbn [target rejection]; (split; [| reflexivity]);
        apply delete_all_perm; unfold pending_keys; apply Permutation_map;
        cbn [andb] in Hp.
      * rewrite filter_app. cbn [filter].
        eapply Permutation_trans;
          [| apply Permutation_app_tail; symmetry; exact Hp].
        destruct (deletable env req); cbn [app].
        -- rewrite app_assoc. symmetry. apply Permutation_cons_append.
        -- rewrite app_nil_r. reflexivity.
      * eapply Permutation_trans;
          [| apply Permutation_app_tail; symmetry; exact Hp].
        reflexivity.
    + destruct (nth_error deleting (i - List.length fetching)) as [req |] eqn:Hdl;
        [| discriminate].
      pose proof (filter_remove_nth (deletable env) _ _ _ Hdl) as Hp.
      unfold deletable in Hp at 2.
      destruct (delete_error env (key req)) as [e |] eqn:Hd;
        inversion H; subst; cbn [target rejection]; (split; [| reflexivity]).
      * apply delete_all_perm. unfold pending_keys. apply Permutation_map.
        apply Permutation_app_head. symmetry. exact Hp.
      * rewrite (delete_all_perm
                   (pending_keys env fetching deleting)
                   (key req ::
                    pending_keys env fetching
                      (remove_nth (i - List.length fetching) deleting)));
          [reflexivity |].
        unfold pending_keys.
        change (key req ::
                map key (filter (removes env) fetching ++
                         filter (deletable env)
                           (remove_nth (i - List.length fetching) deleting)))
          with (map key (req :: filter (removes env) fetching ++
                         filter (deletable env)
                           (remove_nth (i - List.length fetching) deleting))).
        apply Permutation_map.
        eapply Permutation_trans; [apply Permutation_app_head; exact Hp |].
        cbn [app]. symmetry. apply Permutation_middle.
  - discriminate.
Qed.

Lemma crun_target (env : Env) (schedule : list nat) :
  forall d c ls d' c',
    crun env schedule d c = Some (ls, d', c') ->
    target env d' c' = target env d c /\ rejection env c' = rejection env c.
Proof.
  induction schedule as [| i rest IH]; intros d c ls d' c' H; cbn [crun] in H.
  - inversion H; subst. auto.
  - destruct (cstep env i d c) as [[[l d1] c1] |] eqn:Hs; [| discriminate].
    destruct (crun env rest d1 c1) as [[[ls1 d2] c2] |] eqn:Hr; [| discriminate].
    inversion H; subst.
    apply cstep_target in Hs as [Ht Hj]. apply IH in Hr as [Ht' Hj'].
    split; congruence.
Qed.

Lemma settled_target (env : Env) (d : option IDB.ObjectStore) (c : Cycle) :
  settled c = true ->
  target env d c = d /\
  rejection env c = match c with Failed e => Some e | _ => None end.
Proof.
  destruct c as [| | [| r f] [| r' dl] | e]; cbn; intros H;
    try discriminate; auto.
Qed.

Lemma sequential_target (env : Env) (w : World) :
  db (snd (processUploadQueue env w)) = target env (db w) Called /\
  match rejection env Called with
  | Some e => fst (processUploadQueue env w) = Rejected e
  | None => exists r, fst (processUploadQueue env w) = Fulfilled r
  end.
Proof.
  cbn [target rejection].
  destruct (open_error env) as [code |] eqn:Ho.
  - rewrite (processUploadQueue_open_error env w code Ho). auto.
  - destruct (cursor_error env) as [e |] eqn:Hc.
    + rewrite (processUploadQueue_cursor_error env w e Ho Hc). auto.
    + rewrite (processUploadQueue_resolves env w Ho Hc). cbn [fst snd db].
      rewrite drain_db_delete_all. split; [| eauto].
      unfold opened, queue, records_of. reflexivity.
Qed.

(** Whatever the order in which the tasks of a cycle run, once its promise
    has settled the store is the one [processUploadQueue] computes, and the
    promise is rejected or fulfilled as [processUploadQueue] says. *)
Theorem completion_order_is_irrelevant
    (env : Env) (w : World) (schedule : list nat)
    (ls : list Label) (d' : option IDB.ObjectStore) (c' : Cycle) :
  crun env schedule (db w) Called = Some (ls, d', c') ->
  settled c' = true ->
  db (snd (processUploadQueue env w)) = d' /\
  match c' with
  | Failed e => fst (processUploadQueue env w) = Rejected e
  | _ => exists r, fst (processUploadQueue env w) = Fulfilled r
  end.
Proof.
  intros Hrun Hset.
  apply crun_target in Hrun as [Ht Hj].
  destruct (settled_target env d' c' Hset) as [Ht' Hj'].
  destruct (sequential_target env w) as [Hdb Hout].
  split; [congruence |].
  rewrite <- Hj, Hj' in Hout.
  destruct c'; exact Hout.
Qed.

End Adequacy.

(** ** Further properties of the drain cycle *)

(** X1.  A drain cycle only removes.  However it ends, the queue afterwards
    is the queue before with some entries filtered out - the entries that
    stay keep their order and their values - the key generator has not
    moved, and the store is still well-formed. *)
Theorem drain_only_removes (env : Env) (w : World) :
  wf_world w ->
  let w' := snd (processUploadQueue env w) in
  (exists keep, queue w' = filter keep (queue w)) /\
  IDB.keygen (opened w') = IDB.keygen (opened w) /\
  wf_world w'.
Proof.
  intros Hwf w'. subst w'. split; [| split; [| now apply wf_world_cycle]].
  - destruct (processUploadQueue_cases env w)
      as [[code [_ ->]] | [[e [_ [_ ->]]] | [_ [_ ->]]]]; cbn [snd].
    + exists (fun _ => true). now rewrite filter_true.
    + exists (fun _ => true). rewrite filter_true. unfold queue at 1. cbn [db].
      apply queue_opened.
    + eexists. unfold queue at 1. cbn [db IDB.records]. reflexivity.
  - destruct (processUploadQueue_cases env w)
      as [[code [_ ->]] | [[e [_ [_ ->]]] | [_ [_ ->]]]]; cbn [snd]; reflexivity.
Qed.

Lemma drain_only_removes_witness :
  let w' := snd (processUploadQueue Examples.first_fails Examples.two_queued) in
  (exists keep, queue w' = filter keep (queue Examples.two_queued)) /\
  IDB.keygen (opened w') = IDB.keygen (opened Examples.two_queued) /\
  wf_world w'.
Proof.
  apply (drain_only_removes Examples.first_fails Examples.two_queued).
  reflexivity.
Defined.

Lemma filter_none {A} (f : A -> bool) (l : list A) :
  (forall x, In x l -> f x = false) -> filter f l = [].
Proof.
  induction l as [| x l IH]; intros H; cbn; [reflexivity |].
  rewrite (H x) by now left. apply IH. intros y Hy. apply H. now right.
Qed.

(** X2.  A cycle in which nothing fails empties the queue: when the
    enumeration goes through and, for every queued entry, the replay returns
    a success status and the delete request goes through, the cycle resolves
    and no entry is left. *)
Theorem successful_cycle_empties_queue (env : Env) (w : World) :
  open_error env = None -> cursor_error env = None ->
  (forall k v, In (k, v) (queue w) ->
               removes env {| value := v; key := k |} = true) ->
  (exists r, fst (processUploadQueue env w) = Fulfilled r) /\
  queue (snd (processUploadQueue env w)) = [].
Proof.
  intros Ho Hc Hall. split.
  - eexists. now apply cycle_resolved_fst.
  - rewrite cycle_resolved_queue by assumption.
    assert (H : forall kv, In kv (queue w) ->
                           survives env (snapshot (queue w)) kv = false).
    { intros [k v] Hin. apply survives_false.
      exists {| value := v; key := k |}. rewrite in_snapshot. auto. }
    now apply filter_none.
Qed.

Lemma successful_cycle_empties_queue_witness :
  (exists r, fst (processUploadQueue Examples.online Examples.two_queued) =
             Fulfilled r) /\
  queue (snd (processUploadQueue Examples.online Examples.two_queued)) = [].
Proof.
  apply (successful_cycle_empties_queue Examples.online Examples.two_queued);
    reflexivity.
Defined.

Lemma filter_is_fetch_replay_events (env : Env) (req : QueuedRequest) :
  filter is_fetch (replay_events env req) = [EvFetch (key req) (value req)].
Proof.
  unfold replay_events. cbn [filter is_fetch].
  destruct (net env (key req) (value req)) as [e | status]; [reflexivity |].
  destruct (ok status); [| reflexivity].
  destruct (delete_error env (key req)); reflexivity.
Qed.

Lemma filter_concat {A} (f : A -> bool) (ls : list (list A)) :
  filter f (List.concat ls) = List.concat (map (filter f) ls).
Proof.
  induction ls as [| l ls IH]; cbn; [reflexivity |].
  now rewrite filter_app, IH.
Qed.

(** X3.  Every entry is replayed exactly once per cycle, in queue order: in
    a cycle whose enumeration goes through, the [fetch] calls the cycle
    makes are, in this order, one for each entry of the queue as the cursor
    walks it, whatever the outcomes of the replays and of the deletions. *)
Theorem each_entry_fetched_once_in_order (env : Env) (w : World) :
  open_error env = None -> cursor_error env = None ->
  filter is_fetch (cycle_events env w) =
  map (fun kv => EvFetch (fst kv) (snd kv)) (queue w).
Proof.
  intros Ho Hc. rewrite cycle_resolved_events by assumption.
  rewrite filter_concat. unfold snapshot. rewrite !map_map.
  induction (queue w) as [| [k v] q IH]; cbn [map List.concat]; [reflexivity |].
  rewrite filter_is_fetch_replay_events, IH. reflexivity.
Qed.

Lemma each_entry_fetched_once_in_order_witness :
  filter is_fetch (cycle_events Examples.first_fails Examples.two_queued) =
  [EvFetch 1 Examples.doc_upload; EvFetch 2 Examples.face_scan].
Proof.
  apply (each_entry_fetched_once_in_order Examples.first_fails Examples.two_queued);
    reflexivity.
Defined.

Module OrderFacts.
Import Interleave Order.

Lemma in_remove_nth {A} (i : nat) (l : list A) (x : A) :
  In x (remove_nth i l) -> In x l.
Proof.
  unfold remove_nth. intros H. apply in_app_or in H.
  rewrite <- (firstn_skipn i l). apply in_or_app.
  destruct H as [H | H]; [now left | right].
  change (S i) with (1 + i)%nat in H. rewrite <- skipn_skipn in H.
  destruct (skipn i l); cbn in H; [contradiction | now right].
Qed.

Lemma existsb_eqb_in (k : N) (l : list N) : In k l -> existsb (N.eqb k) l = true.
Proof.
  intros H. apply existsb_exists. exists k. split; [exact H | apply N.eqb_refl].
Qed.

(** One task and the keys seen to succeed: the task passes the check, and the
    replays that wait for deletion afterwards have all been seen. *)
Lemma cstep_order (env : Env) (i : nat) (d d' : option IDB.ObjectStore)
    (c c' : Cycle) (l : Label) (seen : list N) :
  cstep env i d c = Some (l, d', c') ->
  (forall req, In req (awaiting_delete c) -> In (key req) seen) ->
  exists seen',
    (forall rest, delete_after_success seen (l :: rest) =
                  delete_after_success seen' rest) /\
    incl seen seen' /\
    (forall req, In req (awaiting_delete c') -> In (key req) seen').
Proof.
  destruct c as [| | fetching deleting | e]; cbn [cstep awaiting_delete];
    intros H Hseen.
  - destruct (open_error env); inversion H; subst;
      exists seen; cbn; repeat split; auto using incl_refl; contradiction.
  - destruct (cursor_error env); inversion H; subst;
      exists seen; cbn; repeat split; auto using incl_refl; contradiction.
  - destruct (nth_error fetching i) as [req |] eqn:Hf.
    + destruct (succeeded (net env (key req) (value req)));
        inversion H; subst; cbn [awaiting_delete delete_after_success].
      * exists (key req :: seen). repeat split.
        -- now apply incl_tl, incl_refl.
        -- intros r Hr. apply in_app_or in Hr as [Hr | [<- | []]].
           ++ right. now apply Hseen.
           ++ now left.
      * exists seen. repeat split; auto using incl_refl.
    + destruct (nth_error deleting (i - List.length fetching)) as [req |] eqn:Hd;
        [| discriminate].
      assert (Hk : existsb (N.eqb (key req)) seen = true).
      { apply existsb_eqb_in, Hseen. eapply nth_error_In. exact Hd. }
      destruct (delete_error env (key req));
        inversion H; subst; cbn [awaiting_delete delete_after_success];
        exists seen; rewrite Hk; repeat split; auto using incl_refl;
        intros r Hr; apply Hseen; eapply in_remove_nth; exact Hr.
  - discriminate.
Qed.

Lemma run_order (envL envR : Env) (schedule : list (Side * nat)) :
  forall c ls c' seen,
    run envL envR schedule c = Some (ls, c') ->
    (forall req, In req (awaiting_delete (left c)) -> In (key req) seen) ->
    (forall req, In req (awaiting_delete (right c)) -> In (key req) seen) ->
    delete_after_success seen ls = true.
Proof.
  induction schedule as [| [side i] rest IH]; intros c ls c' seen H HL HR;
    cbn [run] in H.
  - inversion H; subst. reflexivity.
  - destruct (step envL envR (side, i) c) as [[l c1] |] eqn:Hs; [| discriminate].
    destruct (run envL envR rest c1) as [[ls1 c2] |] eqn:Hr; [| discriminate].
    inversion H; subst. cbn [step] in Hs. destruct side.
    + destruct (cstep envL i (store c) (left c)) as [[[l0 d] cl] |] eqn:Hc;
        inversion Hs; subst.
      destruct (cstep_order _ _ _ _ _ _ _ seen Hc HL) as [seen' [Heq [Hincl HL']]].
      rewrite Heq. eapply IH; [exact Hr | exact HL' |].
      cbn [right]. intros req Hreq. apply Hincl. now apply HR.
    + destruct (cstep envR i (store c) (right c)) as [[[l0 d] cr] |] eqn:Hc;
        inversion Hs; subst.
      destruct (cstep_order _ _ _ _ _ _ _ seen Hc HR) as [seen' [Heq [Hincl HR']]].
      rewrite Heq. eapply IH; [exact Hr | | exact HR'].
      cbn [left]. intros req Hreq. apply Hincl. now apply HL.
Qed.

(** X4.  Delete after success, never before.  Two cycles are started over
    any store, each against any collaborators.  Whatever the order of their
    tasks, every delete request of the run (gone through or failed) comes
    after a [fetch] for the same key has returned a success status. *)
Theorem delete_only_after_success
    (envL envR : Env) (d : option IDB.ObjectStore)
    (schedule : list (Side * nat)) (ls : list Label) (c : Config) :
  run envL envR schedule (both_called d) = Some (ls, c) ->
  delete_after_success [] ls = true.
Proof.
  intros H. eapply run_order; [exact H | |]; cbn; intros req [].
Qed.

Lemma delete_only_after_success_witness :
  delete_after_success []
    [LOpen; LOpen; LList; LList; LFetch 1 true; LFetch 1 true;
     LDelete 1 true; LDelete 1 false] = true.
Proof.
  apply (delete_only_after_success
           Examples.online Examples.online
           (Some {| IDB.records := [(1, Examples.doc_upload)]; IDB.keygen := 2 |})
           [(L, 0); (R, 0); (L, 0); (R, 0); (R, 0); (L, 0); (R, 0); (L, 0)]%nat
           _
           {| store := Some {| IDB.records := []; IDB.keygen := 2 |};
              left := Replaying [] []; right := Replaying [] [] |}).
  reflexivity.
Defined.

Lemma crun_bounded (env : Env) (schedule : list nat) :
  forall d c ls d' c',
    crun env schedule d c = Some (ls, d', c') ->
    (List.length schedule + tasks d' c' <= tasks d c)%nat.
Proof.
  induction schedule as [| i rest IH]; intros d c ls d' c' H; cbn [crun] in H.
  - inversion H; subst. cbn. lia.
  - destruct (cstep env i d c) as [[[l d1] c1] |] eqn:Hs; [| discriminate].
    destruct (crun env rest d1 c1) as [[[ls1 d2] c2] |] eqn:Hr; [| discriminate].
    inversion H; subst.
    apply InterleaveFacts.cstep_tasks in Hs as [Ht _]. apply IH in Hr.
    cbn [List.length]. lia.
Qed.

(** X5.  A cycle settles.  Whatever the order in which the replays of a
    cycle complete and whatever they meet, the cycle runs at most two tasks
    per queued entry plus two, and as long as its promise has not settled it
    has a task that can run: no replay outcome or store error leaves it
    stuck. *)
Theorem cycle_settles
    (env : Env) (d : option IDB.ObjectStore) (schedule : list nat)
    (ls : list Label) (d' : option IDB.ObjectStore) (c' : Cycle) :
  crun env schedule d Called = Some (ls, d', c') ->
  (List.length schedule <= 2 + 2 * List.length (records_of d))%nat /\
  (settled c' = false -> exists next, cstep env 0 d' c' = Some next).
Proof.
  intros H. split.
  - apply crun_bounded in H. cbn [tasks] in H. lia.
  - intros Hs. pose proof (InterleaveFacts.cstep_progress env d' c' Hs) as Hp.
    destruct (cstep env 0 d' c') as [next |]; [eauto | contradiction].
Qed.

Lemma cycle_settles_witness :
  (List.length [0; 0; 1; 0; 0]%nat <=
   2 + 2 * List.length (records_of (db Examples.two_queued)))%nat /\
  (settled (Replaying [] []) = false ->
   exists next,
     cstep Examples.first_fails 0
           (Some {| IDB.records := [(1, Examples.doc_upload)]; IDB.keygen := 3 |})
           (Replaying [] []) = Some next).
Proof.
  apply (cycle_settles Examples.first_fails (db Examples.two_queued)
                       [0; 0; 1; 0; 0]%nat
                       [LOpen; LList; LFetch 2 true; LFetch 1 false;
                        LDelete 2 true]).
  reflexivity.
Defined.

End OrderFacts.

(** ** The KYC server *)

Module ServerFacts.
Import Server.
Local Open Scope server_scope.

Ltac unfold_handlers :=
  unfold handle, register, login, document_upload, face_scan, pending_kyc,
    update_kyc_status, user_status, help, try_catch, throw, bind, respond, ret,
    console_error, findOne, findById, find_by_status, insert, save, genSalt,
    bcrypt_hash, bcrypt_compare, new_User.

Ltac step_case :=
  match goal with
  | |- context [match ?x with _ => _ end] =>
      lazymatch x with
      | context [match _ with _ => _ end] => fail
      | _ => destruct x eqn:?
      end
  end.

Ltac split_cases :=
  repeat (cbv beta iota zeta; cbn [fst snd]; step_case);
  cbv beta iota zeta; cbn [fst snd].

(** X6.  Only a request that succeeds writes.  When a request is answered
    with a status that is neither 200 nor 201, or is not answered at all,
    the collection is exactly as it was.  Every request is answered but one:
    a help request whose prompt is a truthy value that is not a string makes
    the handler throw outside any [try], and no response is sent. *)
Theorem only_success_writes (r : Request) (o : Oracle) (s : State) :
  (success (response r o s) = false -> users (snd (handle r o s)) = users s) /\
  (response r o s = None <-> unanswered r = true).
Proof.
  unfold response.
  destruct r; unfold_handlers;
    try match goal with p : Json |- _ => destruct p as [| txt | [|]] end;
    cbn [falsy_json negb]; split_cases; cbn [fst snd users unanswered];
    (split; [cbn; first [reflexivity | intros H; discriminate H] |]);
    split; intros H; first [reflexivity | discriminate H].
Qed.

(** X7.  The routes that read leave the collection alone: login, the
    pending list, the status route and the help route never change a user,
    whatever they answer. *)
Theorem reading_routes_change_nothing (r : Request) (o : Oracle) (s : State) :
  reads_only r = true ->
  users (snd (handle r o s)) = users s.
Proof.
  destruct r; cbn [reads_only]; try discriminate; intros _;
    unfold_handlers; split_cases; reflexivity.
Qed.

Lemma reading_routes_change_nothing_witness :
  users (snd (handle (Login (Some "9000000001") (Some "wrong"))
                     (ServerExamples.db_down "x") ServerExamples.one_user)) =
  users ServerExamples.one_user.
Proof.
  apply (reading_routes_change_nothing
           (Login (Some "9000000001") (Some "wrong"))
           (ServerExamples.db_down "x") ServerExamples.one_user).
  reflexivity.
Defined.

(** The document stored in place of those with the [_id] of [u]. *)
Lemma in_replace (u : User) (us : list User) (u' : User) :
  In u' (map (fun x => if String.eqb (_id x) (_id u) then u else x) us) ->
  (u' = u /\ exists x, In x us /\ _id x = _id u) \/
  (In u' us /\ _id u' <> _id u).
Proof.
  rewrite in_map_iff. intros [x [Hx Hin]].
  destruct (String.eqb_spec (_id x) (_id u)) as [Heq | Hne]; subst u'.
  - left. eauto.
  - right. auto.
Qed.

Lemma NoDup_map_inj {A B} (f : A -> B) (l : list A) (a b : A) :
  NoDup (map f l) -> In a l -> In b l -> f a = f b -> a = b.
Proof.
  induction l as [| x l IH]; cbn; intros Hnd Ha Hb Hf; [contradiction |].
  inversion Hnd as [| ? ? Hnot Hnd']; subst.
  destruct Ha as [-> | Ha], Hb as [-> | Hb]; auto.
  - exfalso. apply Hnot. rewrite Hf. now apply in_map.
  - exfalso. apply Hnot. rewrite <- Hf. now apply in_map.
Qed.

Lemma findById_some (i : string) (us : list User) (u : User) :
  find (fun x => String.eqb (_id x) i) us = Some u -> In u us /\ _id u = i.
Proof.
  intros H. apply find_some in H as [Hin Heq]. split; [exact Hin |].
  now apply String.eqb_eq.
Qed.

Lemma valid_insert (us : list User) (u : User) :
  valid us ->
  existsb (fun u' => String.eqb (_id u') (_id u) ||
                     String.eqb (mobile u') (mobile u)) us = false ->
  In (kycStatus u) statuses ->
  valid (us ++ [u]).
Proof.
  intros [Hid [Hmob Hst]] Hfresh Hu.
  assert (Hnone : forall x, In x us -> _id x <> _id u /\ mobile x <> mobile u).
  { intros x Hx. destruct (existsb _ us) eqn:He in Hfresh; [discriminate |].
    clear Hfresh.
    assert (Hx' : (String.eqb (_id x) (_id u) ||
                   String.eqb (mobile x) (mobile u)) = false).
    { destruct (String.eqb (_id x) (_id u) || String.eqb (mobile x) (mobile u))
        eqn:Hb; [| reflexivity].
      assert (existsb (fun u' => String.eqb (_id u') (_id u) ||
                                 String.eqb (mobile u') (mobile u)) us = true)
        by (apply existsb_exists; eauto).
      congruence. }
    apply orb_false_iff in Hx' as [H1 H2].
    split; now apply String.eqb_neq. }
  unfold valid. rewrite !map_app. cbn [map]. repeat split.
  - apply NoDup_app; [exact Hid | repeat constructor; intros [] |].
    intros i Hi [<- | []]. apply in_map_iff in Hi as [x [Hx Hin]].
    destruct (Hnone x Hin) as [H1 H2]. auto.
  - apply NoDup_app; [exact Hmob | repeat constructor; intros [] |].
    intros i Hi [<- | []]. apply in_map_iff in Hi as [x [Hx Hin]].
    destruct (Hnone x Hin) as [H1 H2]. auto.
  - apply Forall_app. split; [exact Hst | now constructor].
Qed.

Lemma valid_replace (us : list User) (u0 u : User) :
  valid us ->
  In u0 us -> _id u = _id u0 -> mobile u = mobile u0 ->
  In (kycStatus u) statuses ->
  valid (map (fun x => if String.eqb (_id x) (_id u) then u else x) us).
Proof.
  intros [Hid [Hmob Hst]] Hin Hi Hm Hu. unfold valid. rewrite !map_map.
  assert (Hids : map (fun x => _id (if String.eqb (_id x) (_id u) then u else x)) us =
                 map _id us).
  { apply map_ext. intros x.
    destruct (String.eqb_spec (_id x) (_id u)); congruence. }
  assert (Hmobs : map (fun x => mobile (if String.eqb (_id x) (_id u) then u else x)) us =
                  map mobile us).
  { apply map_ext_in. intros x Hx.
    destruct (String.eqb_spec (_id x) (_id u)) as [Heq | _]; [| reflexivity].
    rewrite Hm. f_equal. symmetry.
    apply (NoDup_map_inj _id us x u0 Hid Hx Hin). congruence. }
  rewrite Hids, Hmobs. repeat split; try assumption.
  rewrite Forall_forall in *. intros x Hx. apply in_map_iff in Hx as [y [<- Hy]].
  destruct (String.eqb (_id y) (_id u)); auto.
Qed.

Lemma after_upload_status (st : string) :
  In st statuses -> In (after_upload st) statuses.
Proof.
  unfold after_upload.
  destruct (String.eqb st "Not Started" || String.eqb st "Rejected"); cbn; auto.
Qed.

Lemma handle_valid (r : Request) (o : Oracle) (s : State) :
  valid (users s) -> valid (users (snd (handle r o s))).
Proof.
  intros Hv. pose proof Hv as [_ [_ Hst]]. rewrite Forall_forall in Hst.
  destruct r; unfold_handlers; split_cases; cbn [users]; try exact Hv;
    try (apply valid_insert; cbn; auto; fail);
    match goal with H : find _ _ = Some ?u0 |- _ =>
      apply findById_some in H as [Hin Hid];
      apply (valid_replace _ u0); cbn [_id mobile kycStatus];
      auto using after_upload_status
    end;
    match goal with H : negb (existsb _ _) = false |- _ =>
      apply negb_false_iff, existsb_exists in H as [x [Hx Heq]];
      apply String.eqb_eq in Heq; rewrite Heq;
      destruct Hx as [<- | [<- | []]]; cbn; auto
    end.
Qed.

(** X8.  What the collection keeps.  Over any sequence of requests, with
    any failures of the database and of bcrypt on the way: no two users
    share an [_id], no two users share a mobile number, and every user's
    [kycStatus] is one of the four values of the schema. *)
Theorem collection_stays_valid (reqs : list (Request * Oracle)) (s : State) :
  valid (users s) -> valid (users (serve reqs s)).
Proof.
  revert s. induction reqs as [| [r o] reqs IH]; intros s Hv; cbn [serve].
  - exact Hv.
  - apply IH. now apply handle_valid.
Qed.

Lemma collection_stays_valid_witness :
  valid (users (serve ServerExamples.history ServerExamples.empty)).
Proof.
  apply (collection_stays_valid ServerExamples.history ServerExamples.empty).
  cbn. repeat split; constructor.
Defined.

Lemma after_upload_decided (st : string) :
  decided (after_upload st) = true -> after_upload st = st.
Proof.
  unfold after_upload.
  destruct (String.eqb st "Not Started" || String.eqb st "Rejected");
    [discriminate | reflexivity].
Qed.

(** X9.  Only the admin route decides.  A request to any other route never
    makes a user Verified or Rejected: a user who has one of these statuses
    after such a request was in the collection before it, with the same
    [_id] and the same status. *)
Theorem only_the_admin_route_decides
    (r : Request) (o : Oracle) (s : State) (u' : User) :
  is_update r = false ->
  In u' (users (snd (handle r o s))) ->
  decided (kycStatus u') = true ->
  exists u, In u (users s) /\ _id u = _id u' /\ kycStatus u = kycStatus u'.
Proof.
  intros Hr Hin Hdec.
  destruct r; cbn [is_update] in Hr; try discriminate; revert Hin;
    unfold_handlers; split_cases; cbn [users]; intros Hin; eauto.
  - apply in_app_or in Hin as [Hin | [<- | []]]; [eauto | discriminate].
  - apply in_replace in Hin as [[-> _] | [Hin _]]; [| eauto].
    cbn [kycStatus _id] in *. apply after_upload_decided in Hdec.
    match goal with H : find _ _ = Some ?u0 |- _ =>
      apply findById_some in H as [Hu0 _]; exists u0; auto
    end.
  - apply in_replace in Hin as [[-> _] | [Hin _]]; [| eauto].
    cbn [kycStatus _id] in *. apply after_upload_decided in Hdec.
    match goal with H : find _ _ = Some ?u0 |- _ =>
      apply findById_some in H as [Hu0 _]; exists u0; auto
    end.
Qed.

Lemma only_the_admin_route_decides_witness :
  exists u,
    In u (users (serve (firstn 3 ServerExamples.history) ServerExamples.empty)) /\
    _id u = "u1" /\ kycStatus u = "Rejected".
Proof.
  apply (only_the_admin_route_decides
           (Register (Some "Ravi") (Some "9000000001") (Some "other"))
           (ServerExamples.toy_oracle "u4")
           (serve (firstn 3 ServerExamples.history) ServerExamples.empty)
           {| _id := "u1"; fullName := "Asha"; mobile := "9000000001";
              password := "$2a$10$secret"; kycStatus := "Rejected";
              documents := [{| docType := Some "aadhaar";
                               filePath := "uploads/u1-document-1.jpg" |}];
              faceScan := None; rejectionReason := Some "Photo is blurred" |}).
  - reflexivity.
  - cbn. auto.
  - reflexivity.
Defined.

Lemma handle_reason (r : Request) (o : Oracle) (s : State) :
  Forall reason_matches (users s) ->
  Forall reason_matches (users (snd (handle r o s))).
Proof.
  intros Hall. pose proof Hall as Hall'. rewrite Forall_forall in Hall'.
  destruct r; unfold_handlers; split_cases; cbn [users]; try exact Hall;
    try (apply Forall_app; split; [exact Hall |]; constructor; [| constructor];
         split; cbn; discriminate);
    rewrite Forall_forall; intros x Hx;
    apply in_replace in Hx as [[-> _] | [Hx _]]; auto;
    match goal with H : find _ _ = Some ?u0 |- _ =>
      apply findById_some in H as [Hu0 _]; destruct (Hall' u0 Hu0) as [Hrej Hver]
    end;
    split; cbn [kycStatus rejectionReason]; intros Hst.
  - exfalso. unfold after_upload in Hst.
    destruct (String.eqb_spec (kycStatus u) "Not Started") as [E | E];
      [discriminate |].
    destruct (String.eqb_spec (kycStatus u) "Rejected") as [E' | E'];
      [discriminate | contradiction].
  - apply Hver. unfold after_upload in Hst.
    destruct (String.eqb (kycStatus u) "Not Started" ||
              String.eqb (kycStatus u) "Rejected"); [discriminate | exact Hst].
  - exfalso. unfold after_upload in Hst.
    destruct (String.eqb_spec (kycStatus u) "Not Started") as [E | E];
      [discriminate |].
    destruct (String.eqb_spec (kycStatus u) "Rejected") as [E' | E'];
      [discriminate | contradiction].
  - apply Hver. unfold after_upload in Hst.
    destruct (String.eqb (kycStatus u) "Not Started" ||
              String.eqb (kycStatus u) "Rejected"); [discriminate | exact Hst].
  - eexists. split; [reflexivity | discriminate].
  - rewrite Hst in *. discriminate.
  - eexists. split; [reflexivity |].
    match goal with H : falsy reason = false |- _ =>
      unfold falsy in H; destruct reason as [txt |]; [| discriminate];
      cbn; now apply String.eqb_neq
    end.
  - rewrite Hst in *. discriminate.
  - rewrite Hst in *. discriminate.
  - reflexivity.
Qed.

(** X10.  The reason goes with the status.  Over any sequence of requests,
    once every rejected user has a rejection reason that is not empty and no
    verified user has one, it stays so: the admin route stores the given
    reason or, when none or an empty one is given, 'No reason provided.',
    and clears it on Verified. *)
Theorem reason_goes_with_status (reqs : list (Request * Oracle)) (s : State) :
  Forall reason_matches (users s) ->
  Forall reason_matches (users (serve reqs s)).
Proof.
  revert s. induction reqs as [| [r o] reqs IH]; intros s H; cbn [serve].
  - exact H.
  - apply IH. now apply handle_reason.
Qed.

Lemma reason_goes_with_status_witness :
  Forall reason_matches (users (serve ServerExamples.history ServerExamples.empty)).
Proof.
  apply (reason_goes_with_status ServerExamples.history ServerExamples.empty).
  constructor.
Defined.

Lemma find_none_iff {A} (f : A -> bool) (l : list A) :
  (forall x, In x l -> f x = false) -> find f l = None.
Proof.
  induction l as [| a l IH]; intros H; cbn; [reflexivity |].
  rewrite (H a) by now left. apply IH. intros x Hx. apply H. now right.
Qed.

Lemma find_snoc {A} (f : A -> bool) (l : list A) (a : A) :
  find f l = None -> f a = true -> find f (l ++ [a]) = Some a.
Proof.
  induction l as [| x l IH]; cbn; intros Hn Ha.
  - now rewrite Ha.
  - destruct (f x); [discriminate | auto].
Qed.

Lemma falsy_some (t : string) : t <> "" -> falsy (Some t) = false.
Proof. intros H. cbn. now apply String.eqb_neq. Qed.

Lemma find_by_id (us : list User) (u : User) :
  NoDup (map _id us) -> In u us ->
  find (fun x => String.eqb (_id x) (_id u)) us = Some u.
Proof.
  intros Hnd Hin.
  destruct (find (fun x => String.eqb (_id x) (_id u)) us) as [x |] eqn:Hf.
  - apply findById_some in Hf as [Hx Hid]. f_equal.
    now apply (NoDup_map_inj _id us x u Hnd Hx Hin).
  - apply find_none with (x := u) in Hf; [| exact Hin].
    now rewrite String.eqb_refl in Hf.
Qed.

Lemma find_replaced (us : list User) (u : User) :
  find (fun x => String.eqb (_id x) (_id u))
       (map (fun x => if String.eqb (_id x) (_id u) then u else x) us) =
  match find (fun x => String.eqb (_id x) (_id u)) us with
  | Some _ => Some u
  | None => None
  end.
Proof.
  induction us as [| x us IH]; cbn; [reflexivity |].
  destruct (String.eqb (_id x) (_id u)) eqn:Hx; cbn.
  - now rewrite String.eqb_refl.
  - now rewrite Hx.
Qed.

(** X11.  Register, then log in.  With the database and bcrypt working, a
    mobile number that is not registered yet, a fresh [_id], and bcrypt
    accepting the password against its own hash: registration answers 201,
    a login with the same mobile number and password then answers 200 with
    the new user's id, name, mobile number and the status Not Started, and a
    login with a password that bcrypt does not accept answers 401. *)
Theorem register_then_login
    (name m pw : string) (o1 o2 : Oracle) (s : State) :
  calm o1 -> calm o2 ->
  name <> "" -> m <> "" -> pw <> "" ->
  (forall u, In u (users s) -> mobile u <> m /\ _id u <> new_id o1) ->
  compare o2 pw (hash o1 pw (salt o1 10)) = true ->
  let s1 := snd (handle (Register (Some name) (Some m) (Some pw)) o1 s) in
  response (Register (Some name) (Some m) (Some pw)) o1 s =
  Some {| status := 201; body := Message "User registered successfully!" |} /\
  response (Login (Some m) (Some pw)) o2 s1 =
  Some {| status := 200;
          body := LoginOk "Login successful!" (new_id o1) name m "Not Started" |} /\
  (forall pw', pw' <> "" ->
               compare o2 pw' (hash o1 pw (salt o1 10)) = false ->
               response (Login (Some m) (Some pw')) o2 s1 =
               Some {| status := 401; body := Message "Invalid credentials." |}).
Proof.
  intros [Hf1 [Hs1 Hb1]] [Hf2 [Hs2 Hb2]] Hname Hm Hpw Hfresh Hcmp s1.
  assert (Hfind : find (fun u => String.eqb (mobile u) m) (users s) = None).
  { apply find_none_iff. intros u Hu. apply String.eqb_neq. now apply Hfresh. }
  assert (Hex : existsb (fun u' => String.eqb (_id u') (new_id o1) ||
                                   String.eqb (mobile u') m) (users s) = false).
  { destruct (existsb _ (users s)) eqn:He; [| reflexivity].
    apply existsb_exists in He as [u [Hu Hb]]. destruct (Hfresh u Hu) as [H1 H2].
    apply orb_true_iff in Hb as [Hb | Hb]; apply String.eqb_eq in Hb; contradiction. }
  assert (Hreg : handle (Register (Some name) (Some m) (Some pw)) o1 s =
                 (Fulfilled {| status := 201;
                               body := Message "User registered successfully!" |},
                  {| users := users s ++
                              [{| _id := new_id o1; fullName := name; mobile := m;
                                  password := hash o1 pw (salt o1 10);
                                  kycStatus := "Not Started"; documents := [];
                                  faceScan := None; rejectionReason := None |}];
                     errors := errors s |})).
  { unfold_handlers. rewrite !falsy_some by assumption. cbn [orb str].
    rewrite Hf1, Hfind, Hb1, Hs1. cbn [_id mobile]. rewrite Hex. reflexivity. }
  assert (Hlogin : forall pw', pw' <> "" ->
            handle (Login (Some m) (Some pw')) o2 s1 =
            (if negb (compare o2 pw' (hash o1 pw (salt o1 10)))
             then Fulfilled {| status := 401; body := Message "Invalid credentials." |}
             else Fulfilled {| status := 200;
                               body := LoginOk "Login successful!"
                                               (new_id o1) name m "Not Started" |},
             s1)).
  { intros pw' Hpw'. subst s1. rewrite Hreg. cbn [snd].
    unfold_handlers. rewrite !falsy_some by assumption. cbn [orb str users].
    rewrite Hf2, (find_snoc _ _ _ Hfind) by (cbn; apply String.eqb_refl).
    rewrite Hb2. cbn [password _id fullName mobile kycStatus].
    now destruct (compare o2 pw' (hash o1 pw (salt o1 10))). }
  unfold response. split; [now rewrite Hreg | split].
  - rewrite (Hlogin pw Hpw), Hcmp. reflexivity.
  - intros pw' Hpw' Hno. rewrite (Hlogin pw' Hpw'), Hno. reflexivity.
Qed.

Lemma register_then_login_witness :
  let s1 := snd (handle (Register (Some "Asha") (Some "9000000001") (Some "secret"))
                        (ServerExamples.toy_oracle "u1") ServerExamples.empty) in
  response (Register (Some "Asha") (Some "9000000001") (Some "secret"))
           (ServerExamples.toy_oracle "u1") ServerExamples.empty =
  Some {| status := 201; body := Message "User registered successfully!" |} /\
  response (Login (Some "9000000001") (Some "secret"))
           (ServerExamples.toy_oracle "u9") s1 =
  Some {| status := 200;
          body := LoginOk "Login successful!" "u1" "Asha" "9000000001"
                          "Not Started" |} /\
  (forall pw', pw' <> "" ->
               compare (ServerExamples.toy_oracle "u9") pw'
                       (hash (ServerExamples.toy_oracle "u1") "secret"
                             (salt (ServerExamples.toy_oracle "u1") 10)) = false ->
               response (Login (Some "9000000001") (Some pw'))
                        (ServerExamples.toy_oracle "u9") s1 =
               Some {| status := 401; body := Message "Invalid credentials." |}).
Proof.
  apply (register_then_login "Asha" "9000000001" "secret"
           (ServerExamples.toy_oracle "u1") (ServerExamples.toy_oracle "u9")
           ServerExamples.empty).
  - repeat split.
  - repeat split.
  - discriminate.
  - discriminate.
  - discriminate.
  - intros u [].
  - reflexivity.
Defined.

(** X12.  A mobile number registers once.  When a user with the mobile
    number is in the collection and the query goes through, a registration
    with that number is answered 409 and the state is as it was. *)
Theorem duplicate_mobile_is_refused
    (name m pw : string) (o : Oracle) (s : State) (u : User) :
  find_error o = None ->
  name <> "" -> m <> "" -> pw <> "" ->
  In u (users s) -> mobile u = m ->
  handle (Register (Some name) (Some m) (Some pw)) o s =
  (Fulfilled {| status := 409; body := Message "Mobile number already registered." |},
   s).
Proof.
  intros Hf Hname Hm Hpw Hin Hmob.
  unfold_handlers. rewrite !falsy_some by assumption. cbn [orb str]. rewrite Hf.
  destruct (find (fun x => String.eqb (mobile x) m) (users s)) as [x |] eqn:Hfind.
  - reflexivity.
  - apply find_none with (x := u) in Hfind; [| exact Hin].
    rewrite Hmob, String.eqb_refl in Hfind. discriminate.
Qed.

Lemma duplicate_mobile_is_refused_witness :
  handle (Register (Some "Ravi") (Some "9000000001") (Some "other"))
         (ServerExamples.toy_oracle "u4") ServerExamples.one_user =
  (Fulfilled {| status := 409; body := Message "Mobile number already registered." |},
   ServerExamples.one_user).
Proof.
  apply (duplicate_mobile_is_refused "Ravi" "9000000001" "other"
           (ServerExamples.toy_oracle "u4") ServerExamples.one_user
           ServerExamples.asha).
  - reflexivity.
  - discriminate.
  - discriminate.
  - discriminate.
  - cbn. auto.
  - reflexivity.
Defined.

(** What the admin route does when everything goes through. *)
Lemma update_done (u : User) (st : string) (reason : Field) (o : Oracle) (s : State) :
  calm o -> NoDup (map _id (users s)) -> In u (users s) ->
  _id u <> "" -> decided st = true ->
  handle (UpdateKycStatus (Some (_id u)) (Some st) reason) o s =
  (Fulfilled {| status := 200;
                body := Message ("User KYC status updated to " ++ st ++ ".") |},
   {| users :=
        map (fun x =>
               if String.eqb (_id x) (_id u)
               then {| _id := _id u; fullName := fullName u; mobile := mobile u;
                       password := password u; kycStatus := st;
                       documents := documents u; faceScan := faceScan u;
                       rejectionReason :=
                         if String.eqb st "Rejected"
                         then Some (if falsy reason then "No reason provided."
                                    else str reason)
                         else None |}
               else x) (users s);
      errors := errors s |}).
Proof.
  intros [Hf [Hs _]] Hnd Hin Hid Hdec.
  unfold_handlers. rewrite falsy_some by assumption.
  assert (Hst : falsy (Some st) = false).
  { cbn. unfold decided in Hdec.
    destruct (String.eqb_spec st ""); [subst; discriminate | reflexivity]. }
  rewrite Hst. cbn [orb str existsb].
  assert (Hinc : negb (String.eqb st "Verified" || (String.eqb st "Rejected" || false))
                 = false).
  { rewrite orb_false_r. unfold decided in Hdec. now rewrite Hdec. }
  rewrite Hinc, Hf, (find_by_id _ _ Hnd Hin), Hs. reflexivity.
Qed.

(** What the document route does when everything goes through. *)
Lemma upload_done (u : User) (type : Field) (path : string) (o : Oracle) (s : State) :
  calm o -> NoDup (map _id (users s)) -> In u (users s) ->
  handle (DocumentUpload (Some (_id u)) type (Some path)) o s =
  (Fulfilled {| status := 200; body := Message "Document uploaded successfully." |},
   {| users :=
        map (fun x =>
               if String.eqb (_id x) (_id u)
               then {| _id := _id u; fullName := fullName u; mobile := mobile u;
                       password := password u;
                       kycStatus := after_upload (kycStatus u);
                       documents := documents u ++
                                    [{| docType := type; filePath := path |}];
                       faceScan := faceScan u;
                       rejectionReason := rejectionReason u |}
               else x) (users s);
      errors := errors s |}).
Proof.
  intros [Hf [Hs _]] Hnd Hin.
  unfold_handlers. rewrite Hf, (find_by_id _ _ Hnd Hin), Hs. reflexivity.
Qed.

Lemma face_done (u : User) (path : string) (o : Oracle) (s : State) :
  calm o -> NoDup (map _id (users s)) -> In u (users s) ->
  handle (FaceScan (Some (_id u)) (Some path)) o s =
  (Fulfilled {| status := 200; body := Message "Face scan uploaded successfully." |},
   {| users :=
        map (fun x =>
               if String.eqb (_id x) (_id u)
               then {| _id := _id u; fullName := fullName u; mobile := mobile u;
                       password := password u;
                       kycStatus := after_upload (kycStatus u);
                       documents := documents u;
                       faceScan := Some path;
                       rejectionReason := rejectionReason u |}
               else x) (users s);
      errors := errors s |}).
Proof.
  intros [Hf [Hs _]] Hnd Hin.
  unfold_handlers. rewrite Hf, (find_by_id _ _ Hnd Hin), Hs. reflexivity.
Qed.

Lemma map_id_replace (u : User) (us : list User) :
  map _id (map (fun x => if String.eqb (_id x) (_id u) then u else x) us) =
  map _id us.
Proof.
  rewrite map_map. apply map_ext. intros x.
  destruct (String.eqb_spec (_id x) (_id u)); congruence.
Qed.

(** X13.  A new upload after a rejection keeps the reason.  A user is
    rejected with a reason and then uploads a document, everything going
    through: the status route then reports the status In Progress together
    with the rejection reason of the earlier decision - the upload moves the
    status and leaves the reason where it was. *)
Theorem reupload_keeps_rejection_reason
    (u : User) (reason path : string) (type : Field)
    (o1 o2 o3 : Oracle) (s : State) :
  calm o1 -> calm o2 -> calm o3 ->
  NoDup (map _id (users s)) -> In u (users s) ->
  _id u <> "" -> reason <> "" ->
  let s1 := snd (handle (UpdateKycStatus (Some (_id u)) (Some "Rejected")
                                         (Some reason)) o1 s) in
  let s2 := snd (handle (DocumentUpload (Some (_id u)) type (Some path)) o2 s1) in
  response (UserStatus (_id u)) o3 s2 =
  Some {| status := 200;
          body := StatusOf (_id u) "In Progress" (fullName u) (Some reason) |}.
Proof.
  intros H1 H2 [Hf3 _] Hnd Hin Hid Hreason s1 s2.
  subst s2 s1.
  rewrite (update_done u "Rejected" (Some reason) o1 s H1 Hnd Hin Hid eq_refl).
  cbn [snd String.eqb Ascii.eqb Bool.eqb]. rewrite (falsy_some reason Hreason).
  cbn [str].
  set (rejected := {| _id := _id u; fullName := fullName u; mobile := mobile u;
                      password := password u; kycStatus := "Rejected";
                      documents := documents u; faceScan := faceScan u;
                      rejectionReason := Some reason |}).
  set (s1 := {| users := map (fun x => if String.eqb (_id x) (_id u)
                                       then rejected else x) (users s);
                errors := errors s |}).
  assert (Hnd1 : NoDup (map _id (users s1))).
  { cbn [users s1]. change (_id u) with (_id rejected).
    now rewrite map_id_replace. }
  assert (Hin1 : In rejected (users s1)).
  { cbn [users s1]. apply in_map_iff. exists u. now rewrite String.eqb_refl. }
  pose proof (upload_done rejected type path o2 s1 H2 Hnd1 Hin1) as Hup.
  change (_id rejected) with (_id u) in Hup. rewrite Hup. cbn [snd].
  unfold response, handle, user_status, try_catch, bind, findById, respond, ret.
  rewrite Hf3. cbn [users].
  set (again := {| _id := _id u; fullName := fullName rejected;
                   mobile := mobile rejected; password := password rejected;
                   kycStatus := after_upload (kycStatus rejected);
                   documents := documents rejected ++
                                [{| docType := type; filePath := path |}];
                   faceScan := faceScan rejected;
                   rejectionReason := rejectionReason rejected |}).
  change (_id u) with (_id again) at 1 2.
  rewrite find_replaced. change (_id again) with (_id rejected).
  rewrite (find_by_id _ _ Hnd1 Hin1). reflexivity.
Qed.

Lemma reupload_keeps_rejection_reason_witness :
  let s1 := snd (handle (UpdateKycStatus (Some "u1") (Some "Rejected")
                                         (Some "Photo is blurred"))
                        (ServerExamples.toy_oracle "a") ServerExamples.one_user) in
  let s2 := snd (handle (DocumentUpload (Some "u1") (Some "pan")
                                        (Some "uploads/u1-document-3.jpg"))
                        (ServerExamples.toy_oracle "b") s1) in
  response (UserStatus "u1") (ServerExamples.toy_oracle "c") s2 =
  Some {| status := 200;
          body := StatusOf "u1" "In Progress" "Asha" (Some "Photo is blurred") |}.
Proof.
  apply (reupload_keeps_rejection_reason
           ServerExamples.asha "Photo is blurred" "uploads/u1-document-3.jpg"
           (Some "pan")
           (ServerExamples.toy_oracle "a") (ServerExamples.toy_oracle "b")
           (ServerExamples.toy_oracle "c") ServerExamples.one_user).
  - repeat split.
  - repeat split.
  - repeat split.
  - cbn. constructor; [intros [] | constructor].
  - cbn. auto.
  - discriminate.
  - discriminate.
Defined.

Lemma pending_lists (o : Oracle) (s : State) :
  find_error o = None ->
  response PendingKyc o s =
  Some {| status := 200;
          body := Users (filter (fun u => String.eqb (kycStatus u) "In Progress")
                                (users s)) |}.
Proof.
  intros Hf. unfold response, handle, pending_kyc, try_catch, bind,
    find_by_status, respond, ret.
  now rewrite Hf.
Qed.

(** X14.  A decided user leaves the pending list.  After the admin route
    has answered 200 for a user id, the pending list - whenever its query
    goes through - holds no user with that id. *)
Theorem decided_user_leaves_pending_list
    (i : string) (st reason : Field) (o o' : Oracle) (s : State) (resp : Response) :
  response (UpdateKycStatus (Some i) st reason) o s = Some resp ->
  status resp = 200 ->
  find_error o' = None ->
  exists pending,
    response PendingKyc o' (snd (handle (UpdateKycStatus (Some i) st reason) o s)) =
    Some {| status := 200; body := Users pending |} /\
    forall x, In x pending -> _id x <> i.
Proof.
  intros Hresp H200 Hf'. eexists. split; [now apply pending_lists |].
  intros x Hx. apply filter_In in Hx as [Hx Hst]. apply String.eqb_eq in Hst.
  revert Hresp Hx. unfold response.
  unfold_handlers; split_cases; cbn [users];
    intros Hresp Hx; inversion Hresp; subst resp; try discriminate H200.
  all: match goal with H : find _ _ = Some ?u0 |- _ =>
         apply findById_some in H as [Hu0 Hid0]
       end.
  all: match goal with H : negb (existsb _ _) = false |- _ =>
         apply negb_false_iff, existsb_exists in H as [d [Hd Heq]];
         apply String.eqb_eq in Heq
       end.
  all: apply in_replace in Hx as [[-> _] | [_ Hne]];
    [ cbn [kycStatus] in Hst; rewrite Heq in Hst;
      destruct Hd as [<- | [<- | []]]; discriminate Hst
    | cbn [_id] in Hne; congruence ].
Qed.

Lemma decided_user_leaves_pending_list_witness :
  exists pending,
    response PendingKyc (ServerExamples.toy_oracle "z")
      (snd (handle (UpdateKycStatus (Some "u1") (Some "Verified") None)
                   (ServerExamples.toy_oracle "a") ServerExamples.one_user)) =
    Some {| status := 200; body := Users pending |} /\
    forall x, In x pending -> _id x <> "u1".
Proof.
  apply (decided_user_leaves_pending_list
           "u1" (Some "Verified") None
           (ServerExamples.toy_oracle "a") (ServerExamples.toy_oracle "z")
           ServerExamples.one_user
           {| status := 200;
              body := Message "User KYC status updated to Verified." |});
    reflexivity.
Defined.

Lemma after_upload_pending (st : string) :
  In st statuses -> st <> "Verified" -> after_upload st = "In Progress".
Proof.
  unfold after_upload.
  intros [<- | [<- | [<- | [<- | []]]]] Hne; try reflexivity. contradiction.
Qed.

(** X15.  An upload puts the user on the pending list.  When a user who is
    not Verified uploads a document or a face scan and everything goes
    through, the pending list then holds a user with that id, with the
    status In Progress; a Verified user stays Verified and does not show up
    there. *)
Theorem uploader_enters_pending_list
    (u : User) (type : Field) (path : string) (o o' : Oracle) (s : State) :
  calm o -> find_error o' = None ->
  valid (users s) -> In u (users s) ->
  forall r,
    r = DocumentUpload (Some (_id u)) type (Some path) \/
    r = FaceScan (Some (_id u)) (Some path) ->
    exists pending,
      response PendingKyc o' (snd (handle r o s)) =
      Some {| status := 200; body := Users pending |} /\
      ((exists x, In x pending /\ _id x = _id u) <-> kycStatus u <> "Verified").
Proof.
  intros Ho Hf' Hv Hin r Hr. pose proof Hv as [Hnd [_ Hst]].
  rewrite Forall_forall in Hst. specialize (Hst u Hin).
  eexists. split; [now apply pending_lists |].
  assert (Hgen : forall unew,
             _id unew = _id u -> kycStatus unew = after_upload (kycStatus u) ->
             ((exists x,
                  In x (filter (fun y => String.eqb (kycStatus y) "In Progress")
                               (map (fun y => if String.eqb (_id y) (_id u)
                                              then unew else y) (users s))) /\
                  _id x = _id u) <-> kycStatus u <> "Verified")).
  { intros unew Hid Hs. split.
    - intros [x [Hx Hxid]] Hver. apply filter_In in Hx as [Hx Hxs].
      apply String.eqb_eq in Hxs.
      rewrite <- Hid in Hx. apply in_replace in Hx as [[-> _] | [_ Hne]].
      + rewrite Hs, Hver in Hxs. discriminate.
      + congruence.
    - intros Hne. exists unew. split; [| exact Hid].
      apply filter_In. split.
      + apply in_map_iff. exists u. now rewrite String.eqb_refl.
      + rewrite Hs, (after_upload_pending _ Hst Hne). reflexivity. }
  destruct Hr as [-> | ->].
  - rewrite (upload_done u type path o s Ho Hnd Hin). cbn [snd users].
    now apply Hgen.
  - rewrite (face_done u path o s Ho Hnd Hin). cbn [snd users].
    now apply Hgen.
Qed.

Lemma uploader_enters_pending_list_witness :
  exists pending,
    response PendingKyc (ServerExamples.toy_oracle "z")
      (snd (handle (FaceScan (Some "u1") (Some "uploads/u1-face-scan-2.png"))
                   (ServerExamples.toy_oracle "a") ServerExamples.one_user)) =
    Some {| status := 200; body := Users pending |} /\
    ((exists x, In x pending /\ _id x = "u1") <->
     kycStatus ServerExamples.asha <> "Verified").
Proof.
  apply (uploader_enters_pending_list
           ServerExamples.asha None "uploads/u1-face-scan-2.png"
           (ServerExamples.toy_oracle "a") (ServerExamples.toy_oracle "z")
           ServerExamples.one_user).
  - repeat split.
  - reflexivity.
  - cbn. repeat split; repeat constructor; cbn; auto; intros [].
  - cbn. auto.
  - right. reflexivity.
Defined.

Lemma credentials_replace (us : list User) (u0 u : User) :
  NoDup (map _id us) -> In u0 us ->
  credentials u = credentials u0 ->
  map credentials (map (fun x => if String.eqb (_id x) (_id u) then u else x) us) =
  map credentials us.
Proof.
  intros Hnd Hin Hc. rewrite map_map. apply map_ext_in. intros x Hx.
  destruct (String.eqb_spec (_id x) (_id u)) as [Heq | _]; [| reflexivity].
  rewrite Hc. f_equal. symmetry.
  apply (NoDup_map_inj _id us x u0 Hnd Hx Hin).
  unfold credentials in Hc. congruence.
Qed.

(** X16.  No request removes a user or changes who they are.  Whatever the
    request and its outcome, the users' ids, names, mobile numbers and
    password hashes afterwards are those before, in the same order - or, for
    a registration that succeeded, those before followed by the one new
    user. *)
Theorem users_are_never_lost_or_altered (r : Request) (o : Oracle) (s : State) :
  valid (users s) ->
  map credentials (users (snd (handle r o s))) = map credentials (users s) \/
  (exists name m pw u,
      r = Register name m pw /\ users (snd (handle r o s)) = users s ++ [u]).
Proof.
  intros [Hnd _].
  destruct r; unfold_handlers; split_cases; cbn [users]; auto;
    try (right; eauto 8; fail);
    left;
    match goal with H : find _ _ = Some ?u0 |- _ =>
      apply findById_some in H as [Hu0 _];
      apply (credentials_replace _ u0); auto
    end.
Qed.

Lemma users_are_never_lost_or_altered_witness :
  map credentials
      (users (snd (handle (UpdateKycStatus (Some "u1") (Some "Rejected") None)
                          (ServerExamples.toy_oracle "a") ServerExamples.one_user))) =
  map credentials (users ServerExamples.one_user) \/
  (exists name m pw u,
      UpdateKycStatus (Some "u1") (Some "Rejected") None = Register name m pw /\
      users (snd (handle (UpdateKycStatus (Some "u1") (Some "Rejected") None)
                         (ServerExamples.toy_oracle "a") ServerExamples.one_user)) =
      users ServerExamples.one_user ++ [u]).
Proof.
  apply (users_are_never_lost_or_altered
           (UpdateKycStatus (Some "u1") (Some "Rejected") None)
           (ServerExamples.toy_oracle "a") ServerExamples.one_user).
  cbn. repeat split; repeat constructor; cbn; auto; intros [].
Defined.

End ServerFacts.

(** ** The help route *)

Module HelpFacts.
Import Server.
Local Open Scope string_scope.

Lemma includes_unfold (s sub : string) :
  includes s sub =
  String.prefix sub s ||
  match s with
  | EmptyString => false
  | String _ rest => includes rest sub
  end.
Proof. destruct s; reflexivity. Qed.

Lemma prefix_empty (s : string) : String.prefix "" s = true.
Proof. destruct s; reflexivity. Qed.

Lemma prefix_app (k b : string) : String.prefix k (k ++ b) = true.
Proof.
  induction k as [| c k IH]; cbn; [apply prefix_empty |].
  destruct (ascii_dec c c); [exact IH | contradiction].
Qed.

Lemma prefix_app_r (sub s b : string) :
  String.prefix sub s = true -> String.prefix sub (s ++ b) = true.
Proof.
  revert s. induction sub as [| c sub IH]; intros s H; [apply prefix_empty |].
  destruct s as [| c' s]; cbn in *; [discriminate |].
  destruct (ascii_dec c c'); [now apply IH | discriminate].
Qed.

Lemma includes_app_l (a s sub : string) :
  includes s sub = true -> includes (a ++ s) sub = true.
Proof.
  intros H. induction a as [| c a IH]; cbn [append]; [exact H |].
  rewrite includes_unfold, IH. apply orb_true_r.
Qed.

Lemma includes_app_r (s b sub : string) :
  includes s sub = true -> includes (s ++ b) sub = true.
Proof.
  induction s as [| c s IH]; intros H; rewrite includes_unfold in H;
    apply orb_true_iff in H as [H | H]; rewrite includes_unfold.
  - now rewrite (prefix_app_r _ _ b H).
  - discriminate.
  - now rewrite (prefix_app_r _ _ b H).
  - cbn [append]. rewrite (IH H). apply orb_true_r.
Qed.

Lemma includes_middle (a k b : string) : includes (a ++ k ++ b) k = true.
Proof.
  apply includes_app_l. rewrite includes_unfold, prefix_app. reflexivity.
Qed.

(** What [includes] computes: the string has the keyword somewhere in it. *)
Lemma includes_spec (s sub : string) :
  includes s sub = true <-> exists a b, s = (a ++ sub ++ b)%string.
Proof.
  split.
  - induction s as [| c s IH]; intros H; rewrite includes_unfold in H;
      apply orb_true_iff in H as [H | H]; try discriminate.
    + destruct sub; [| discriminate]. exists ""%string, ""%string. reflexivity.
    + exists ""%string. cbn [append].
      clear IH. revert H. generalize (String c s). intros t. revert t.
      induction sub as [| x sub IHs]; intros t H; [now exists t |].
      destruct t as [| y t]; cbn in H; [discriminate |].
      destruct (ascii_dec x y) as [-> | _]; [| discriminate].
      destruct (IHs t H) as [b ->]. now exists b.
    + destruct (IH H) as [a [b ->]]. exists (String c a), b. reflexivity.
  - intros [a [b ->]]. apply includes_middle.
Qed.

Lemma toLowerCase_app (a b : string) :
  toLowerCase (a ++ b) = (toLowerCase a ++ toLowerCase b)%string.
Proof. induction a as [| c a IH]; cbn; [reflexivity | now rewrite IH]. Qed.

(** X17.  The document keywords win, in any letter case and in any
    context.  A prompt that has 'document', 'aadhaar' or 'pan' somewhere in
    it, in whatever mix of upper and lower case, is answered 200 with the
    reply about documents, whatever other keywords it holds; the state is
    not touched. *)
Theorem document_keywords_win
    (before word after : string) (o : Oracle) (s : State) :
  In (toLowerCase word) ["document"; "aadhaar"; "pan"]%string ->
  handle (Help (JString (before ++ word ++ after))) o s =
  (Fulfilled {| status := 200; body := Reply reply_documents |}, s).
Proof.
  intros Hword.
  assert (Hne : falsy_json (JString (before ++ word ++ after)) = false).
  { cbn. apply String.eqb_neq. intros Hempty.
    destruct before; [| discriminate]. destruct word; [| discriminate].
    cbn in Hword. destruct Hword as [H | [H | [H | []]]]; discriminate. }
  unfold handle, help, respond, ret. rewrite Hne.
  unfold help_reply. rewrite !toLowerCase_app.
  destruct Hword as [<- | [<- | [<- | []]]]; rewrite includes_middle;
    rewrite ?orb_true_r; reflexivity.
Qed.

Lemma document_keywords_win_witness :
  handle (Help (JString ("How much time for my " ++ "AADHAAR" ++ " photo?")))
         (ServerExamples.toy_oracle "x") ServerExamples.empty =
  (Fulfilled {| status := 200; body := Reply reply_documents |},
   ServerExamples.empty).
Proof.
  apply (document_keywords_win "How much time for my " "AADHAAR" " photo?"
           (ServerExamples.toy_oracle "x") ServerExamples.empty).
  cbn. auto.
Defined.

Lemma includes_suffix (s a b : string) :
  includes s (a ++ b) = true -> includes s b = true.
Proof.
  intros H. apply includes_spec in H as [x [y ->]].
  apply includes_spec. exists (x ++ a)%string, y.
  clear. induction x as [| c x IH]; cbn [append].
  - induction a as [| c a IH]; cbn [append]; [reflexivity | now rewrite IH].
  - now rewrite IH.
Qed.

(** X18.  The keyword 'kitna time' never decides a reply.  A prompt that
    holds it holds 'time' as well, which the same branch tests first; so
    whenever the help route's reply is the one about the time it takes, the
    prompt holds 'time' or 'how long', and the third test of that branch has
    decided nothing. *)
Theorem kitna_time_never_decides (prompt : string) :
  (includes (toLowerCase prompt) "kitna time" = true ->
   includes (toLowerCase prompt) "time" = true) /\
  (help_reply prompt = reply_time ->
   includes (toLowerCase prompt) "time" = true \/
   includes (toLowerCase prompt) "how long" = true).
Proof.
  assert (Hcov : includes (toLowerCase prompt) "kitna time" = true ->
                 includes (toLowerCase prompt) "time" = true)
    by apply (includes_suffix _ "kitna " "time").
  split; [exact Hcov |].
  unfold help_reply.
  destruct (includes (toLowerCase prompt) "document" ||
            includes (toLowerCase prompt) "aadhaar" ||
            includes (toLowerCase prompt) "pan"); [discriminate |].
  destruct (includes (toLowerCase prompt) "time") eqn:Ht; [auto |].
  destruct (includes (toLowerCase prompt) "how long") eqn:Hl; [auto |].
  destruct (includes (toLowerCase prompt) "kitna time") eqn:Hk.
  - specialize (Hcov eq_refl). discriminate Hcov.
  - cbn [orb].
    destruct (includes (toLowerCase prompt) "safe" ||
              includes (toLowerCase prompt) "secure" ||
              includes (toLowerCase prompt) "data"); [discriminate |].
    destruct (includes (toLowerCase prompt) "hello" ||
              includes (toLowerCase prompt) "help" ||
              includes (toLowerCase prompt) "hi"); [discriminate |].
    destruct (includes (toLowerCase prompt) "face scan" ||
              includes (toLowerCase prompt) "photo"); discriminate.
Qed.

Lemma kitna_time_never_decides_witness :
  help_reply "Kitna TIME lagega?" = reply_time /\
  (includes (toLowerCase "Kitna TIME lagega?") "time" = true \/
   includes (toLowerCase "Kitna TIME lagega?") "how long" = true).
Proof.
  split; [reflexivity |].
  apply (kitna_time_never_decides "Kitna TIME lagega?"). reflexivity.
Defined.

End HelpFacts.

(** ** The shell cache *)

Module ShellFacts.
Import Shell.
Local Open Scope string_scope.

Lemma lookup_put_same (u : string) (r : Response) (c : Cache) :
  lookup u (put u r c) = Some r.
Proof. unfold lookup, put. cbn. now rewrite String.eqb_refl. Qed.

Lemma lookup_put_other (u u' : string) (r : Response) (c : Cache) :
  u <> u' -> lookup u (put u' r c) = lookup u c.
Proof.
  intros Hne. unfold lookup, put. cbn.
  destruct (String.eqb_spec u' u) as [Heq | _]; [congruence |].
  induction c as [| [x rx] c IH]; cbn; [reflexivity |].
  destruct (String.eqb_spec x u') as [-> | Hx]; cbn.
  - destruct (String.eqb_spec u' u); [congruence | exact IH].
  - destruct (String.eqb x u); [reflexivity | exact IH].
Qed.

(** After the responses of [addAll] are put, the cache answers each of their
    URLs with the response fetched for it. *)
Lemma lookup_put_all (rs : list (string * Response)) :
  forall c u r,
    NoDup (map fst rs) -> In (u, r) rs ->
    lookup u (fold_left (fun c' ur => put (fst ur) (snd ur) c') rs c) = Some r.
Proof.
  induction rs as [| [u0 r0] rs IH]; intros c u r Hnd Hin; cbn in *;
    [contradiction |].
  inversion Hnd as [| ? ? Hnot Hnd']; subst.
  destruct Hin as [Heq | Hin].
  - inversion Heq; subst. clear IH Heq.
    assert (Hkeep : forall l c0,
               ~ In u (map fst l) ->
               lookup u (fold_left (fun c' ur => put (fst ur) (snd ur) c') l c0) =
               lookup u c0).
    { induction l as [| [x rx] l IHl]; intros c0 Hx; cbn in *; [reflexivity |].
      rewrite IHl by tauto. apply lookup_put_other. intros ->. tauto. }
    rewrite Hkeep by assumption. apply lookup_put_same.
  - now apply IH.
Qed.

Lemma fetch_all_urls (net : Net) (urls : list string) :
  forall rs,
    fetch_all net urls = Some rs ->
    map fst rs = urls /\
    forall u r, In (u, r) rs ->
                net {| request_url := u; request_method := "GET" |} = Answered r.
Proof.
  induction urls as [| u urls IH]; intros rs H; cbn in H.
  - inversion H; subst. split; [reflexivity | intros ? ? []].
  - destruct (net {| request_url := u; request_method := "GET" |}) as [e | r] eqn:Hn;
      [discriminate |].
    destruct (ok (response_status r)); [| discriminate].
    destruct (fetch_all net urls) as [rs' |]; [| discriminate].
    inversion H; subst. destruct (IH rs' eq_refl) as [Hurls Hans].
    split; [cbn; now rewrite Hurls |].
    intros u' r' [Heq | Hin]; [inversion Heq; subst; exact Hn | now apply Hans].
Qed.

Lemma match_all_found (req : Request) (cs : list (string * Cache)) :
  request_method req = "GET" ->
  (exists name c r, In (name, c) cs /\ lookup (request_url req) c = Some r) ->
  exists r, match_all req cs = Some r.
Proof.
  intros Hget [name [c [r [Hin Hl]]]].
  induction cs as [| [n0 c0] cs IH]; cbn in *; [contradiction |].
  rewrite Hget. cbn.
  destruct (lookup (request_url req) c0) as [r0 |] eqn:H0; [eauto |].
  destruct Hin as [Heq | Hin]; [inversion Heq; subst; congruence |].
  exact (IH Hin).
Qed.

Lemma in_opened (name : string) (cs : list (string * Cache)) :
  exists c, In (name, c) (open name cs).
Proof.
  unfold open. destruct (existsb _ cs) eqn:He.
  - apply existsb_exists in He as [[n c] [Hin Hn]]. cbn in Hn.
    apply String.eqb_eq in Hn. subst. eauto.
  - exists []. apply in_or_app. right. now left.
Qed.

(** X19.  The installed shell is served offline.  Once the [install]
    listener's promise has been fulfilled, a GET request for any URL of the
    shell list is answered by the [fetch] listener from a cache, whatever
    the network does then: its promise is fulfilled, no request is sent and
    nothing is written.  When there was no cache before the install, the
    answer is the response the network gave for that URL at install time. *)
Theorem installed_shell_is_served_offline
    (net later : Net) (w : World) (u : string) :
  fst (on_install net w) = Fulfilled tt ->
  In u shell ->
  let w1 := snd (on_install net w) in
  let req := {| request_url := u; request_method := "GET" |} in
  (exists r, on_fetch req later w1 = (Fulfilled r, w1)) /\
  (caches w = [] ->
   forall r, net req = Answered r -> on_fetch req later w1 = (Fulfilled r, w1)).
Proof.
  intros Hinst Hu w1 req. subst w1.
  set (get := {| request_url := u; request_method := "GET" |}) in *. subst req.
  revert Hinst. unfold on_install.
  destruct (fetch_all net shell) as [rs |] eqn:Hf; [| discriminate]. intros _.
  cbn [snd]. destruct (fetch_all_urls net shell rs Hf) as [Hurls Hans].
  assert (Hnd : NoDup (map fst rs)).
  { rewrite Hurls. unfold shell.
    repeat constructor; cbn; intuition discriminate. }
  assert (Hr : exists r, In (u, r) rs).
  { rewrite <- Hurls in Hu. apply in_map_iff in Hu as [[u' r] [Heq Hin]].
    cbn in Heq. subst. eauto. }
  destruct Hr as [r Hr]. unfold on_fetch. cbn [caches]. split.
  - destruct (in_opened CACHE_NAME (caches w)) as [c Hc].
    destruct (match_all_found get
                (update_cache CACHE_NAME
                   (fun c0 => fold_left (fun c' ur => put (fst ur) (snd ur) c') rs c0)
                   (open CACHE_NAME (caches w))) eq_refl) as [r' Hr'].
    + exists CACHE_NAME, (fold_left (fun c' ur => put (fst ur) (snd ur) c') rs c), r.
      split; [| now apply lookup_put_all].
      unfold update_cache. apply in_map_iff. exists (CACHE_NAME, c).
      split; [| exact Hc]. cbn [fst snd]. now rewrite String.eqb_refl.
    + rewrite Hr'. eauto.
  - intros Hempty r0 Hnet. rewrite Hempty.
    assert (r0 = r) as -> by (pose proof (Hans u r Hr); unfold get in Hnet; congruence).
    unfold open, update_cache. cbn [existsb app map fst snd match_all].
    rewrite String.eqb_refl. cbn [request_method get request_url String.eqb
                                  Ascii.eqb Bool.eqb].
    rewrite (lookup_put_all rs [] u r Hnd Hr). reflexivity.
Qed.

Lemma installed_shell_is_served_offline_witness :
  let w1 := snd (on_install serving fresh) in
  let req := {| request_url := "login.html"; request_method := "GET" |} in
  (exists r, on_fetch req offline w1 = (Fulfilled r, w1)) /\
  (caches fresh = [] ->
   forall r, serving req = Answered r -> on_fetch req offline w1 = (Fulfilled r, w1)).
Proof.
  apply (installed_shell_is_served_offline serving offline fresh "login.html").
  - reflexivity.
  - cbn. auto.
Defined.

End ShellFacts.
